(** * pricing_k2: the loan simulation of [Paginas/premissas.py]

    A shallow embedding of [simular_emprestimo] (tax calendar, cash-flow
    builder, goal-seek objective, grid search, report table) and of the
    income-tax recovery step of [app], followed by the properties of the
    specification that concern them.

    Numbers.  Python floats are modelled by exact rationals in canonical
    form ([Qc]), so that equality of values is Leibniz equality; rounding is
    abstracted away.  Month indices and list positions are natural numbers:
    every index the source computes is non-negative.

    Libraries.  [numpy_financial.irr], [numpy_financial.pmt] and
    [scipy.optimize.root_scalar] are external: they are Section variables. *)

From Stdlib Require Import QArith Qcanon Ascii String.
From Equations Require Import Equations.
From stdpp Require Import base numbers list strings.
From Stdlib Require Import Qround DecimalN DecimalPos.
From stdpp Require Import gmap.

Local Open Scope Qc_scope.

(** ** Python runtime *)

Module Py.

(** The only exception class the source raises or meets. *)
Inductive exn : Type :=
| ValueError (msg : string).

Inductive result (A : Type) : Type :=
| Ok (a : A)
| Raise (e : exn).
Global Arguments Ok {A} a.
Global Arguments Raise {A} e.

Definition bind {A B} (r : result A) (k : A → result B) : result B :=
  match r with
  | Ok a => k a
  | Raise e => Raise e
  end.

(** [str.lower()] on the ASCII range. *)
Definition lower_ascii (c : ascii) : ascii :=
  let n := nat_of_ascii c in
  if bool_decide (65 ≤ n ∧ n ≤ 90)%nat then ascii_of_nat (n + 32) else c.

Fixpoint lower (s : string) : string :=
  match s with
  | EmptyString => EmptyString
  | String c s' => String (lower_ascii c) (lower s')
  end.

(** [sum(xs)]: starts from 0 and adds from the left. *)
Definition sum (xs : list Qc) : Qc := foldl Qcplus 0 xs.

(** [xs[lo:hi]] for [0 <= lo]. *)
Definition slice {A} (xs : list A) (lo hi : nat) : list A :=
  take (hi - lo) (drop lo xs).

(** [xs[i]], 0 where the position does not exist (never read there). *)
Definition get (xs : list Qc) (i : nat) : Qc := default 0 (xs !! i).

(** [max(xs)]: the first maximal element; raises on an empty sequence. *)
Definition max_nat (xs : list nat) : result nat :=
  match xs with
  | [] => Raise (ValueError "max() arg is an empty sequence")
  | x :: xs' => Ok (foldl (λ m y, if bool_decide (m < y)%nat then y else m) x xs')
  end.

(** [abs(x)]. *)
Definition abs (x : Qc) : Qc := if bool_decide (x < 0) then - x else x.

Definition max_Qc (xs : list Qc) : result Qc :=
  match xs with
  | [] => Raise (ValueError "max() arg is an empty sequence")
  | x :: xs' => Ok (foldl (λ m y, if bool_decide (m < y) then y else m) x xs')
  end.

End Py.
Import Py.

Global Instance result_bind : MBind result := λ A B k r, Py.bind r k.
Global Instance result_ret : MRet result := @Py.Ok.

(** ** Tax calendar (premissas.py, lines 49-63) *)

(** Line 50: [[mes for mes in range(4, num_parcelas + 1) if (mes - 1) % 3 == 0]]. *)
Definition impostos_meses (num_parcelas : nat) : list nat :=
  filter (λ mes, (mes - 1) mod 3 = 0)%nat (seq 4 (num_parcelas + 1 - 4)).

(** The guard of the [while True] loop, line 56. *)
Definition tributavel (m : nat) : Prop := (4 ≤ m ∧ (m - 1) mod 3 = 0)%nat.

Global Instance tributavel_dec m : Decision (tributavel m).
Proof. unfold tributavel. apply _. Defined.

(** Distance from [m] to the next month that satisfies the guard: the
    termination measure of the loop. *)
Definition ate_tributavel (m : nat) : nat :=
  if bool_decide (m < 4)%nat then 4 - m else (3 - (m - 1) mod 3) mod 3.

(** Lines 55-59: [while True: if m >= 4 and (m - 1) % 3 == 0: ... break; m += 1]. *)
Equations? proximo_tributavel (m : nat) : nat by wf (ate_tributavel m) lt :=
  proximo_tributavel m with decide (tributavel m) => {
    | left _ := m;
    | right _ := proximo_tributavel (S m) }.
Proof.
  unfold tributavel, ate_tributavel in *.
  repeat case_bool_decide; try lia.
  - assert (m = 3)%nat as -> by lia. cbn. lia.
  - assert ((m - 1) mod 3 = 1 ∨ (m - 1) mod 3 = 2)%nat as Hr.
    { pose proof (Nat.mod_upper_bound (m - 1) 3). lia. }
    replace (S m - 1)%nat with (S (m - 1)) by lia.
    pose proof (Nat.Div0.add_mod 1 (m - 1) 3) as Hs.
    change (1 + (m - 1))%nat with (S (m - 1)) in Hs. rewrite Hs.
    destruct Hr as [-> | ->]; simpl; lia.
Qed.

(** Lines 53-63. *)
Definition extra_index (tipo_operacao : string) (num_parcelas : nat) : result nat :=
  if bool_decide (lower tipo_operacao = "compra") then
    Ok (proximo_tributavel (num_parcelas + 1))
  else if bool_decide (lower tipo_operacao = "aluguel") then
    Ok (num_parcelas + 1)%nat
  else
    Raise (ValueError "Tipo de operação inválido. Use 'aluguel' ou 'compra'.").

(** ** Arguments and locals of [simular_emprestimo] *)

(** The arguments of [simular_emprestimo] (lines 18-23); [None] is Python's
    [None] default of [pmt_min] and [pmt_max]. *)
Record args : Type := Args {
  valor_emprestado : Qc;
  num_parcelas : nat;
  tir_desejada : Qc;
  inflacao_anual : Qc;
  aliquota_pis : Qc;
  aliquota_cofins : Qc;
  tipo_operacao : string;
  pmt_min : option Qc;
  pmt_max : option Qc;
  n_points : nat;
  aliquota_irpj : Qc;
  aliquota_cssl : Qc;
  limite_isencao_irpj : Qc;
  aliquota_adicional_irpj : Qc }.

(** The [custos] dictionary of line 192, one field per key. *)
Record custos : Type := Custos {
  PIS : list Qc;
  COFINS : list Qc;
  CSSL : list Qc;
  IRPJ : list Qc;
  Base_IRPJ : list Qc;
  Base_Adicional_IRPJ : list Qc }.

(** The local lists of [calcular_fluxos_com_impostos] and the running
    payment [pmt_atual]. *)
Record fluxos : Type := Fluxos {
  pmt_atual : Qc;
  fluxo_bruta : list Qc;
  fluxo_liquida : list Qc;
  custos_pis : list Qc;
  custos_cofins : list Qc;
  custos_cssl : list Qc;
  custos_irpj : list Qc;
  bases_irpj : list Qc;
  bases_adicional_irpj : list Qc }.

(** [for x in xs: st = body(x, st)], stopping at the first exception. *)
Fixpoint for_each {S : Type} (xs : list nat) (body : nat → S → result S) (st : S)
  : result S :=
  match xs with
  | [] => Ok st
  | x :: xs' => st' ← body x st; for_each xs' body st'
  end.

(** The base factors as the source writes them. *)
Definition f032 : Qc := Q2Qc 0.32.
Definition f012 : Qc := Q2Qc 0.12.
Definition f008 : Qc := Q2Qc 0.08.

(** ** Cash-flow builder (lines 72-207) *)

(** Lines 131-134 (and 167-170, 177-180, 284-287, 312-315). *)
Definition base_adicional_de (a : args) (base_irpj : Qc) : Qc :=
  if bool_decide (limite_isencao_irpj a ≤ base_irpj)
  then base_irpj - limite_isencao_irpj a else 0.

(** Lines 100-125: the pair (factor_irpj, factor_cssl) of month [mes]. *)
Definition fatores (a : args) (mes : nat) : result (Qc * Qc) :=
  let impostos := impostos_meses (num_parcelas a) in
  if bool_decide (lower (tipo_operacao a) = "aluguel") then
    if bool_decide (mes ∈ impostos) then
      mx ← max_nat impostos;
      if bool_decide (mes = mx) then Ok (f032, f032) else Ok (f032, f032)
    else Ok (0, 0)
  else
    if bool_decide (mes ∈ impostos) then
      if bool_decide (mes < num_parcelas a)%nat then Ok (f032, f032) else Ok (f008, f012)
    else Ok (0, 0).

(** Lines 127-140: (custo_cssl, custo_irpj, base_irpj, base_adicional) of
    month [mes], given the factors [fs] = (factor_irpj, factor_cssl) of lines
    100-125.  In [fluxo_bruta[mes - 3: mes]] the month is at least 4. *)
Definition impostos_do_mes (a : args) (mes : nat) (fs : Qc * Qc) (bruta : list Qc)
  : Qc * Qc * Qc * Qc :=
  let factor_irpj := fs.1 in
  let factor_cssl := fs.2 in
  if bool_decide (mes ∈ impostos_meses (num_parcelas a)) then
    let base_cssl := sum (slice bruta (mes - 3) mes) * factor_cssl in
    let custo_cssl := - (base_cssl * aliquota_cssl a) in
    let base_irpj := sum (slice bruta (mes - 3) mes) * factor_irpj in
    let base_adicional := base_adicional_de a base_irpj in
    let custo_irpj :=
      - (base_irpj * aliquota_irpj a + base_adicional * aliquota_adicional_irpj a) in
    (custo_cssl, custo_irpj, base_irpj, base_adicional)
  else (0, 0, 0, 0).

(** Lines 91-98 and 127-147: what one turn of the loop writes. *)
Definition grava_parcela (a : args) (mes : nat) (fs : Qc * Qc) (st : fluxos) : fluxos :=
  let pmt :=
    if bool_decide (1 < mes ∧ (mes - 1) mod 12 = 0)%nat
    then pmt_atual st * (1 + inflacao_anual a) else pmt_atual st in
  let bruta := <[mes := pmt]> (fluxo_bruta st) in
  let custo_pis := - (pmt * aliquota_pis a) in
  let custo_cofins := - (pmt * aliquota_cofins a) in
  let t := impostos_do_mes a mes fs bruta in
  let custo_cssl := t.1.1.1 in
  let custo_irpj := t.1.1.2 in
  let base_irpj := t.1.2 in
  let base_adicional := t.2 in
  {| pmt_atual := pmt;
     fluxo_bruta := bruta;
     fluxo_liquida :=
       <[mes := Py.get bruta mes + custo_pis + custo_cofins + custo_cssl + custo_irpj]>
         (fluxo_liquida st);
     custos_pis := <[mes := custo_pis]> (custos_pis st);
     custos_cofins := <[mes := custo_cofins]> (custos_cofins st);
     custos_cssl := <[mes := custo_cssl]> (custos_cssl st);
     custos_irpj := <[mes := custo_irpj]> (custos_irpj st);
     bases_irpj := <[mes := base_irpj]> (bases_irpj st);
     bases_adicional_irpj := <[mes := base_adicional]> (bases_adicional_irpj st) |}.

(** Lines 91-147: the body of [for mes in range(1, num_parcelas + 1)].  The
    factors are the only step that can raise, through [max]. *)
Definition passo_parcela (a : args) (mes : nat) (st : fluxos) : result fluxos :=
  fs ← fatores a mes;
  Ok (grava_parcela a mes fs st).

(** Lines 150-158: the months between the last instalment and the extra flow. *)
Definition passo_zero (mes : nat) (st : fluxos) : result fluxos :=
  Ok {| pmt_atual := pmt_atual st;
        fluxo_bruta := <[mes := 0]> (fluxo_bruta st);
        fluxo_liquida := <[mes := 0]> (fluxo_liquida st);
        custos_pis := <[mes := 0]> (custos_pis st);
        custos_cofins := <[mes := 0]> (custos_cofins st);
        custos_cssl := <[mes := 0]> (custos_cssl st);
        custos_irpj := <[mes := 0]> (custos_irpj st);
        bases_irpj := <[mes := 0]> (bases_irpj st);
        bases_adicional_irpj := <[mes := 0]> (bases_adicional_irpj st) |}.

(** Lines 160-186: (custo_cssl_final, custo_irpj_final, base_irpj_final,
    base_adicional_final).  With [num_parcelas >= 3] the extra index is at
    least 4, so the slice starts at a month. *)
Definition fluxo_extra (a : args) (extra_index : nat) (bruta : list Qc)
  : Qc * Qc * Qc * Qc :=
  if bool_decide (3 ≤ num_parcelas a)%nat then
    let soma := sum (slice bruta (extra_index - 3) extra_index) in
    if bool_decide (lower (tipo_operacao a) = "aluguel") then
      let base_cssl_final := soma * f032 in
      let custo_cssl_final := - (base_cssl_final * aliquota_cssl a) in
      let base_irpj_final := soma * f032 in
      let base_adicional_final := base_adicional_de a base_irpj_final in
      (custo_cssl_final,
       - (base_irpj_final * aliquota_irpj a
          + base_adicional_final * aliquota_adicional_irpj a),
       base_irpj_final, base_adicional_final)
    else
      let base_cssl_final := soma * f012 in
      let custo_cssl_final := - (base_cssl_final * aliquota_cssl a) in
      let base_irpj_final := soma * f008 in
      let base_adicional_final := base_adicional_de a base_irpj_final in
      (custo_cssl_final,
       - (base_irpj_final * aliquota_irpj a
          + base_adicional_final * aliquota_adicional_irpj a),
       base_irpj_final, base_adicional_final)
  else (0, 0, 0, 0).

(** Lines 73-89: the lists of zeros and month 0. *)
Definition fluxos_iniciais (a : args) (extra_index : nat) (pmt_bruta : Qc) : fluxos :=
  let total_fluxos := (extra_index + 1)%nat in
  let zeros := replicate total_fluxos (0 : Qc) in
  {| pmt_atual := pmt_bruta;
     fluxo_bruta := <[0%nat := - valor_emprestado a]> zeros;
     fluxo_liquida := <[0%nat := - valor_emprestado a]> zeros;
     custos_pis := zeros; custos_cofins := zeros; custos_cssl := zeros;
     custos_irpj := zeros; bases_irpj := zeros; bases_adicional_irpj := zeros |}.

(** Lines 72-207.  [extra_index] is the variable of the enclosing function: it
    is greater than [num_parcelas], so every assignment [xs[mes] = v] below
    is within the [extra_index + 1] positions of its list and is a plain
    update. *)
Definition calcular_fluxos_com_impostos (a : args) (extra_index : nat) (pmt_bruta : Qc)
  : result (list Qc * list Qc * custos) :=
  let st0 := fluxos_iniciais a extra_index pmt_bruta in
  st1 ← for_each (seq 1 (num_parcelas a)) (passo_parcela a) st0;
  st2 ← for_each (seq (num_parcelas a + 1) (extra_index - (num_parcelas a + 1)))
                 passo_zero st1;
  let t := fluxo_extra a extra_index (fluxo_bruta st2) in
  let custo_cssl_final := t.1.1.1 in
  let custo_irpj_final := t.1.1.2 in
  let base_irpj_final := t.1.2 in
  let base_adicional_final := t.2 in
  let bruta := <[extra_index := 0]> (fluxo_bruta st2) in
  let liquida := <[extra_index := custo_cssl_final + custo_irpj_final]> (fluxo_liquida st2) in
  Ok (bruta, liquida,
      {| PIS := <[extra_index := 0]> (custos_pis st2);
         COFINS := <[extra_index := 0]> (custos_cofins st2);
         CSSL := <[extra_index := custo_cssl_final]> (custos_cssl st2);
         IRPJ := <[extra_index := custo_irpj_final]> (custos_irpj st2);
         Base_IRPJ := <[extra_index := base_irpj_final]> (bases_irpj st2);
         Base_Adicional_IRPJ :=
           <[extra_index := base_adicional_final]> (bases_adicional_irpj st2) |}).

(** ** Invariants of the builder *)

(** The factors (IRPJ, CSSL) of a recognition month. *)
Definition fator_de (a : args) (mes : nat) : Qc * Qc :=
  if bool_decide (lower (tipo_operacao a) = "aluguel") then (f032, f032)
  else if bool_decide (mes < num_parcelas a)%nat then (f032, f032)
  else (f008, f012).

(** The four income-tax cells of month [p] in the returned dictionary. *)
Definition quatro (c : custos) (p : nat) (t : Qc * Qc * Qc * Qc) : Prop :=
  CSSL c !! p = Some t.1.1.1 ∧ IRPJ c !! p = Some t.1.1.2 ∧
  Base_IRPJ c !! p = Some t.1.2 ∧ Base_Adicional_IRPJ c !! p = Some t.2.

Section construtor.

Context (a : args) (ei : nat) (pmt_bruta : Qc).

(** Every list keeps its [extra_index + 1] positions. *)
Definition comprimentos (st : fluxos) : Prop :=
  length (fluxo_bruta st) = S ei ∧ length (fluxo_liquida st) = S ei ∧
  length (custos_pis st) = S ei ∧ length (custos_cofins st) = S ei ∧
  length (custos_cssl st) = S ei ∧ length (custos_irpj st) = S ei ∧
  length (bases_irpj st) = S ei ∧ length (bases_adicional_irpj st) = S ei.

(** Month [p] holds what the loop wrote for a gross flow [x]. *)
Definition mes_gravado (st : fluxos) (p : nat) : Prop :=
  ∃ x, fluxo_bruta st !! p = Some x ∧
       custos_pis st !! p = Some (- (x * aliquota_pis a)) ∧
       custos_cofins st !! p = Some (- (x * aliquota_cofins a)) ∧
       let t := impostos_do_mes a p (fator_de a p) (fluxo_bruta st) in
       custos_cssl st !! p = Some t.1.1.1 ∧ custos_irpj st !! p = Some t.1.1.2 ∧
       bases_irpj st !! p = Some t.1.2 ∧ bases_adicional_irpj st !! p = Some t.2 ∧
       fluxo_liquida st !! p =
         Some (x + - (x * aliquota_pis a) + - (x * aliquota_cofins a)
               + t.1.1.1 + t.1.1.2).

(** Month [p] still holds the zeros of lines 74-83. *)
Definition mes_zero (st : fluxos) (p : nat) : Prop :=
  fluxo_bruta st !! p = Some 0 ∧ fluxo_liquida st !! p = Some 0 ∧
  custos_pis st !! p = Some 0 ∧ custos_cofins st !! p = Some 0 ∧
  custos_cssl st !! p = Some 0 ∧ custos_irpj st !! p = Some 0 ∧
  bases_irpj st !! p = Some 0 ∧ bases_adicional_irpj st !! p = Some 0.

(** Month 0 holds the disbursement and no tax. *)
Definition mes_inicial (st : fluxos) : Prop :=
  fluxo_bruta st !! 0%nat = Some (- valor_emprestado a) ∧
  fluxo_liquida st !! 0%nat = Some (- valor_emprestado a) ∧
  custos_pis st !! 0%nat = Some 0 ∧ custos_cofins st !! 0%nat = Some 0 ∧
  custos_cssl st !! 0%nat = Some 0 ∧ custos_irpj st !! 0%nat = Some 0 ∧
  bases_irpj st !! 0%nat = Some 0 ∧ bases_adicional_irpj st !! 0%nat = Some 0.

(** With a payment and an inflation that are not negative, neither is
    any gross flow from month 1 on. *)
Definition bruta_nao_negativa (st : fluxos) : Prop :=
  0 ≤ pmt_bruta → 0 ≤ inflacao_anual a →
  0 ≤ pmt_atual st ∧ ∀ p x, (1 ≤ p)%nat → fluxo_bruta st !! p = Some x → 0 ≤ x.

(** The loop invariant before month [k]. *)
Definition inv_parcelas (k : nat) (st : fluxos) : Prop :=
  comprimentos st ∧ mes_inicial st ∧
  (∀ p, (1 ≤ p < k)%nat → mes_gravado st p) ∧
  (∀ p, (k ≤ p ≤ ei)%nat → mes_zero st p) ∧
  bruta_nao_negativa st.

End construtor.

(** ** Report table (lines 239-325) *)

(** The columns of [df_fluxos]; its index is 0..extra_index, so a row label
    is a list position. *)
Record data_frame : Type := DataFrame {
  df_Mes : list nat;
  df_Fluxo_de_Caixa_Bruta : list Qc;
  df_Fluxo_de_Caixa_Liquida : list Qc;
  df_PIS : list Qc;
  df_COFINS : list Qc;
  df_Base_Tributavel_CSSL : list Qc;
  df_CSSL : list Qc;
  df_Base_Tributavel_IRPJ : list Qc;
  df_Base_Adicional_IRPJ : list Qc;
  df_IRPJ : list Qc;
  df_IRPJ_Adicional : list Qc }.

(** [df.loc[lo:hi, col]]: label slices include both ends. *)
Definition loc_slice {A} (col : list A) (lo hi : nat) : list A :=
  take (hi + 1 - lo) (drop lo col).

(** Lines 240-257. *)
Definition df_inicial (a : args) (extra_index : nat) (bruta liquida : list Qc)
  : data_frame :=
  let zeros := replicate (extra_index + 1) (0 : Qc) in
  {| df_Mes := seq 0 (extra_index + 1);
     df_Fluxo_de_Caixa_Bruta := bruta;
     df_Fluxo_de_Caixa_Liquida := liquida;
     df_PIS := (λ x, if bool_decide (0 < x) then - (x * aliquota_pis a) else 0) <$> bruta;
     df_COFINS :=
       (λ x, if bool_decide (0 < x) then - (x * aliquota_cofins a) else 0) <$> bruta;
     df_Base_Tributavel_CSSL := zeros;
     df_CSSL := zeros;
     df_Base_Tributavel_IRPJ := zeros;
     df_Base_Adicional_IRPJ := zeros;
     df_IRPJ := zeros;
     df_IRPJ_Adicional := zeros |}.

(** Lines 260-283: the factors (IRPJ, CSSL) the report applies at [mes]; every
    branch of the source evaluates [max(impostos_meses)]. *)
Definition fatores_relatorio (a : args) (mes : nat) : result (Qc * Qc) :=
  mx ← max_nat (impostos_meses (num_parcelas a));
  if bool_decide (lower (tipo_operacao a) = "aluguel") then
    if bool_decide (mes = mx) then Ok (f032, f032) else Ok (f032, f032)
  else
    if bool_decide (mes = mx) then Ok (f008, f012) else Ok (f032, f032).

(** Lines 292-297 and 320-325: the six cells written in row [mes]. *)
Definition grava_linha (a : args) (mes : nat) (base_cssl base_irpj : Qc)
    (df : data_frame) : data_frame :=
  let cssl_valor := - (base_cssl * aliquota_cssl a) in
  let base_adicional := base_adicional_de a base_irpj in
  let irpj_basico := - (base_irpj * aliquota_irpj a) in
  let irpj_adicional := - (base_adicional * aliquota_adicional_irpj a) in
  let total_irpj := irpj_basico + irpj_adicional in
  {| df_Mes := df_Mes df;
     df_Fluxo_de_Caixa_Bruta := df_Fluxo_de_Caixa_Bruta df;
     df_Fluxo_de_Caixa_Liquida := df_Fluxo_de_Caixa_Liquida df;
     df_PIS := df_PIS df;
     df_COFINS := df_COFINS df;
     df_Base_Tributavel_CSSL := <[mes := base_cssl]> (df_Base_Tributavel_CSSL df);
     df_CSSL := <[mes := cssl_valor]> (df_CSSL df);
     df_Base_Tributavel_IRPJ := <[mes := base_irpj]> (df_Base_Tributavel_IRPJ df);
     df_Base_Adicional_IRPJ := <[mes := base_adicional]> (df_Base_Adicional_IRPJ df);
     df_IRPJ := <[mes := total_irpj]> (df_IRPJ df);
     df_IRPJ_Adicional := <[mes := irpj_adicional]> (df_IRPJ_Adicional df) |}.

(** Lines 259-297: the body of [for mes in impostos_meses]. *)
Definition passo_relatorio (a : args) (mes : nat) (df : data_frame)
  : result data_frame :=
  let soma := sum (loc_slice (df_Fluxo_de_Caixa_Bruta df) (mes - 3) (mes - 1)) in
  fs ← fatores_relatorio a mes;
  Ok (grava_linha a mes (soma * fs.2) (soma * fs.1) df).

(** Lines 299-325.  The slice [extra_index - 3: extra_index] is a label
    slice: it takes four rows, the extra row included. *)
Definition relatorio_extra (a : args) (extra_index : nat) (df : data_frame)
  : result data_frame :=
  mx ← max_nat (impostos_meses (num_parcelas a));
  if bool_decide (mx < extra_index)%nat then
    let soma :=
      sum (loc_slice (df_Fluxo_de_Caixa_Bruta df) (extra_index - 3) extra_index) in
    if bool_decide (lower (tipo_operacao a) = "aluguel")
    then Ok (grava_linha a extra_index (soma * f032) (soma * f032) df)
    else Ok (grava_linha a extra_index (soma * f012) (soma * f008) df)
  else Ok df.

(** Lines 239-325: the table built from the flows at the optimal payment. *)
Definition montar_df (a : args) (extra_index : nat) (bruta liquida : list Qc)
  : result data_frame :=
  df ← for_each (impostos_meses (num_parcelas a)) (passo_relatorio a)
                (df_inicial a extra_index bruta liquida);
  relatorio_extra a extra_index df.

(** ** Goal seek (lines 65-70 and 209-236) *)

(** [numpy.linspace(start, stop, num)] with its default [endpoint=True], in
    exact arithmetic. *)
Definition linspace (start stop : Qc) (num : nat) : list Qc :=
  (λ i : nat, start + Qc_of_Z (Z.of_nat i) * ((stop - start) / Qc_of_Z (Z.of_nat num - 1)))
    <$> seq 0 num.

Section simular_emprestimo.

(** [numpy_financial.irr]: [None] is the not-a-number result. *)
Variable npf_irr : list Qc → option Qc.
(** [numpy_financial.pmt(rate, nper, pv)]. *)
Variable npf_pmt : Qc → nat → Qc → Qc.
(** [root_scalar(f, bracket=[x0, x1], method="brentq")]: [Some root] when
    it returns with [sol.converged]; [None] when it does not converge or
    raises, the two cases in which line 227 appends nothing. *)
Variable root_scalar : (Qc → result Qc) → Qc → Qc → option Qc.

(** Lines 209-214. *)
Definition funcao_goal_seek_impostos (a : args) (extra_index : nat) (pmt_bruta : Qc)
  : result Qc :=
  r ← calcular_fluxos_com_impostos a extra_index pmt_bruta;
  let fluxos_liquidos := r.1.2 in
  match npf_irr fluxos_liquidos with
  | None => Ok (- 1 - tir_desejada a)
  | Some tir_liquida => Ok (tir_liquida - tir_desejada a)
  end.

(** Lines 221-229: the body of [for i in range(len(pmt_grid) - 1)]. *)
Definition passo_raizes (f : Qc → result Qc) (pmt_grid f_vals : list Qc)
    (raizes : list Qc) (i : nat) : list Qc :=
  if bool_decide (Py.get f_vals i * Py.get f_vals (i + 1) < 0) then
    match root_scalar f (Py.get pmt_grid i) (Py.get pmt_grid (i + 1)) with
    | Some root => raizes ++ [root]
    | None => raizes
    end
  else raizes.

(** Lines 220-229. *)
Definition busca_raizes (f : Qc → result Qc) (pmt_grid f_vals : list Qc) : list Qc :=
  foldl (passo_raizes f pmt_grid f_vals) [] (seq 0 (length pmt_grid - 1)).

(** Lines 231-234. *)
Definition escolhe_pmt (raizes : list Qc) : result Qc :=
  match raizes with
  | [] => Raise (ValueError "Nenhuma solução encontrada para o PMT no intervalo definido.")
  | _ :: _ => max_Qc raizes
  end.

(** Lines 65-70 and 217: the payment range and its grid. *)
Definition pmt_grid (a : args) : list Qc :=
  let pmt_teorica :=
    Py.abs (npf_pmt (tir_desejada a) (num_parcelas a) (valor_emprestado a)) in
  let pmt_min := default pmt_teorica (pmt_min a) in
  let pmt_max := default (pmt_teorica * 2) (pmt_max a) in
  linspace pmt_min pmt_max (n_points a).

(** Lines 216-234: the search. *)
Definition goal_seek (a : args) (extra_index : nat) : result Qc :=
  let f := funcao_goal_seek_impostos a extra_index in
  f_vals ← mapM f (pmt_grid a);
  escolhe_pmt (busca_raizes f (pmt_grid a) f_vals).

(** Lines 18-327.  [tir_final] of line 237 is computed and not used. *)
Definition simular_emprestimo (a : args)
  : result (Qc * list Qc * list Qc * data_frame) :=
  extra_index ← extra_index (tipo_operacao a) (num_parcelas a);
  pmt_otimizada ← goal_seek a extra_index;
  r ← calcular_fluxos_com_impostos a extra_index pmt_otimizada;
  let fluxo_bruta := r.1.1 in
  let fluxo_liquida := r.1.2 in
  df_fluxos ← montar_df a extra_index fluxo_bruta fluxo_liquida;
  Ok (pmt_otimizada, fluxo_bruta, fluxo_liquida, df_fluxos).

End simular_emprestimo.

(** ** Income-tax recovery ([app], lines 333 and 645-701) *)

(** Line 333: the two values the selection box can put in [tipo_operacao]. *)
Inductive selecao : Type := Aluguel | Compra.

Definition tipo_selecionado (s : selecao) : string :=
  match s with
  | Aluguel => "Aluguel"
  | Compra => "Compra"
  end.

(** A row of [df_parcelas_recuperacao] after lines 651-663: the rows kept by
    the filter, converted back to numbers and sorted by month. *)
Record linha : Type := Linha {
  Mes : nat;
  Fluxo_de_Caixa_Bruta : Qc }.

(** Lines 645-646. *)
Definition recuperacao_irpj : Qc := Q2Qc 0.34.
Definition cdi : Qc := Q2Qc 0.01134762.

(** [df["Mês"].max()] (lines 683 and 694); the frame holds month 0. *)
Definition max_mes (linhas : list linha) : nat := foldr Nat.max 0%nat (Mes <$> linhas).

(** Lines 671-675: the column [Parcela]. *)
Definition parcela (l : linha) : Qc :=
  - (if bool_decide (Mes l = 0%nat) then 0 else Fluxo_de_Caixa_Bruta l).

(** The test [Mês >= max_mes - 3] on integers (lines 685 and 697). *)
Definition ultimos_4 (linhas : list linha) (mes : nat) : Prop :=
  (Z.of_nat (max_mes linhas) - 3 ≤ Z.of_nat mes)%Z.

Global Instance ultimos_4_dec linhas mes : Decision (ultimos_4 linhas mes).
Proof. unfold ultimos_4. apply _. Defined.

(** Lines 680-685: the column [Recuperação IR]. *)
Definition recuperacao_ir (tipo_operacao : string) (linhas : list linha) : list Qc :=
  let coluna := (λ l, - parcela l * recuperacao_irpj) <$> linhas in
  if bool_decide (tipo_operacao = "compra") then
    zip_with (λ l v, if bool_decide (ultimos_4 linhas (Mes l)) then 0 else v)
             linhas coluna
  else coluna.

(** Lines 692-703: the initial value [soma_ajustada]. *)
Definition soma_ajustada (tipo_operacao : string) (linhas : list linha) : Qc :=
  foldl (λ soma l,
           let i := Mes l in
           let valor := - parcela l in
           let fator :=
             if bool_decide (tipo_operacao = "compra" ∧ ultimos_4 linhas i)
             then 1 else 1 - recuperacao_irpj in
           soma + fator * (valor / (1 + cdi) ^ i))
        0 (filter (λ l, Mes l ≠ 0%nat) linhas).

(** ** Sample inputs *)

(** A purchase of 5 instalments with the rates of the application. *)
Definition compra_5 : args :=
  {| valor_emprestado := Q2Qc 1000; num_parcelas := 5;
     tir_desejada := Q2Qc 0.024; inflacao_anual := Q2Qc 0.04;
     aliquota_pis := Q2Qc 0.0065; aliquota_cofins := Q2Qc 0.03;
     tipo_operacao := "compra"; pmt_min := None; pmt_max := None; n_points := 101;
     aliquota_irpj := Q2Qc 0.15; aliquota_cssl := Q2Qc 0.09;
     limite_isencao_irpj := Q2Qc 60000; aliquota_adicional_irpj := Q2Qc 0.10 |}.

(** A rental of a single instalment, searched on the grid 0, 1, 2. *)
Definition aluguel_1 : args :=
  {| valor_emprestado := 1; num_parcelas := 1;
     tir_desejada := Q2Qc 0.5; inflacao_anual := 0;
     aliquota_pis := 0; aliquota_cofins := 0;
     tipo_operacao := "aluguel"; pmt_min := Some 0; pmt_max := Some 2; n_points := 3;
     aliquota_irpj := Q2Qc 0.15; aliquota_cssl := Q2Qc 0.09;
     limite_isencao_irpj := Q2Qc 60000; aliquota_adicional_irpj := Q2Qc 0.10 |}.

(** The internal rate of return of a schedule with one instalment,
    [-v, c, 0]: c / v - 1. *)
Definition irr_uma_parcela (fluxo : list Qc) : option Qc :=
  Some (Py.get fluxo 1 / - Py.get fluxo 0 - 1).

(** A refinement that returns the midpoint of the bracket. *)
Definition root_scalar_meio (f : Qc → result Qc) (x0 x1 : Qc) : option Qc :=
  Some ((x0 + x1) / 2).

(** The level payment of the PRICE formula, a stand-in for
    [numpy_financial.pmt] in the sample runs. *)
Definition pmt_price (rate : Qc) (nper : nat) (pv : Qc) : Qc :=
  - (pv * rate * (1 + rate) ^ nper / ((1 + rate) ^ nper - 1)).

(** The rows of a purchase of 28 instalments of 100 after a principal of
    2000: month 0 and the months with a payment. *)
Definition linhas_compra_28 : list linha :=
  Linha 0 (- Q2Qc 2000) :: ((λ m, Linha m (Q2Qc 100)) <$> seq 1 28).

(** ** Vocabulary of the statements *)

(** (custo_cssl, custo_irpj, base_irpj, base_adicional) computed from the
    sum of three gross flows with the factors [factor_irpj], [factor_cssl],
    as lines 128-135 do. *)
Definition impostos_com_fatores (a : args) (soma factor_irpj factor_cssl : Qc)
  : Qc * Qc * Qc * Qc :=
  let base_cssl := soma * factor_cssl in
  let base_irpj := soma * factor_irpj in
  let base_adicional := base_adicional_de a base_irpj in
  (- (base_cssl * aliquota_cssl a),
   - (base_irpj * aliquota_irpj a + base_adicional * aliquota_adicional_irpj a),
   base_irpj, base_adicional).

(** The exception of line 234. *)
Definition sem_solucao : exn :=
  ValueError "Nenhuma solução encontrada para o PMT no intervalo definido.".




(** The six tax cells of month [p] have the signs of costs and of bases. *)
Definition sinais_do_mes (c : custos) (p : nat) : Prop :=
  ∃ pis cofins cssl irpj base adicional,
    PIS c !! p = Some pis ∧ COFINS c !! p = Some cofins ∧
    CSSL c !! p = Some cssl ∧ IRPJ c !! p = Some irpj ∧
    Base_IRPJ c !! p = Some base ∧ Base_Adicional_IRPJ c !! p = Some adicional ∧
    pis ≤ 0 ∧ cofins ≤ 0 ∧ cssl ≤ 0 ∧ irpj ≤ 0 ∧ 0 ≤ base ∧ 0 ≤ adicional.

(** ** Further invariants of the builder *)

(** The payment of month [p]: the first payment, raised by the inflation
    once for every twelve months elapsed (lines 89-93). *)
Definition parcela_reajustada (a : args) (pmt_bruta : Qc) (p : nat) : Qc :=
  pmt_bruta * (1 + inflacao_anual a) ^ ((p - 1) / 12).

(** The running payment before month [k], and the gross flows written so
    far. *)
Definition inv_reajuste (a : args) (pmt_bruta : Qc) (k : nat) (st : fluxos) : Prop :=
  pmt_atual st = pmt_bruta * (1 + inflacao_anual a) ^ ((k - 2) / 12) ∧
  ∀ p, (1 ≤ p < k)%nat → fluxo_bruta st !! p = Some (parcela_reajustada a pmt_bruta p).

(** What the builder returns from the lists [st] left by its two loops
    (lines 160-207). *)
Definition retorno_de (a : args) (ei : nat) (st : fluxos)
  : list Qc * list Qc * custos :=
  let t := fluxo_extra a ei (fluxo_bruta st) in
  (fluxo_bruta st,
   <[ei := t.1.1.1 + t.1.1.2]> (fluxo_liquida st),
   {| PIS := custos_pis st;
      COFINS := custos_cofins st;
      CSSL := <[ei := t.1.1.1]> (custos_cssl st);
      IRPJ := <[ei := t.1.1.2]> (custos_irpj st);
      Base_IRPJ := <[ei := t.1.2]> (bases_irpj st);
      Base_Adicional_IRPJ := <[ei := t.2]> (bases_adicional_irpj st) |}).

(** The six cells of month [p] that enter the net flow. *)
Definition linha_fluxo (bruta liquida : list Qc) (c : custos) (p : nat)
    (b l pis cofins cssl irpj : Qc) : Prop :=
  bruta !! p = Some b ∧ liquida !! p = Some l ∧
  PIS c !! p = Some pis ∧ COFINS c !! p = Some cofins ∧
  CSSL c !! p = Some cssl ∧ IRPJ c !! p = Some irpj.

(** ** Invariants of the report table *)

(** The factors (IRPJ, CSSL) the report applies at a recognition month, given
    the largest recognition month [mx] (lines 261-283). *)
Definition fator_relatorio_de (a : args) (mx mes : nat) : Qc * Qc :=
  if bool_decide (lower (tipo_operacao a) = "aluguel") then (f032, f032)
  else if bool_decide (mes = mx) then (f008, f012) else (f032, f032).

(** The sum the report takes for row [mes] (lines 260 and 273). *)
Definition soma_relatorio (bruta : list Qc) (mes : nat) : Qc :=
  sum (loc_slice bruta (mes - 3) (mes - 1)).

(** Row [p] holds the six cells written from the two bases. *)
Definition celulas (a : args) (df : data_frame) (p : nat) (base_cssl base_irpj : Qc)
  : Prop :=
  df_Base_Tributavel_CSSL df !! p = Some base_cssl ∧
  df_CSSL df !! p = Some (- (base_cssl * aliquota_cssl a)) ∧
  df_Base_Tributavel_IRPJ df !! p = Some base_irpj ∧
  df_Base_Adicional_IRPJ df !! p = Some (base_adicional_de a base_irpj) ∧
  df_IRPJ df !! p =
    Some (- (base_irpj * aliquota_irpj a)
          + - (base_adicional_de a base_irpj * aliquota_adicional_irpj a)) ∧
  df_IRPJ_Adicional df !! p =
    Some (- (base_adicional_de a base_irpj * aliquota_adicional_irpj a)).

(** Row [p] still holds the zeros of lines 252-257. *)
Definition celulas_zero (df : data_frame) (p : nat) : Prop :=
  df_Base_Tributavel_CSSL df !! p = Some 0 ∧ df_CSSL df !! p = Some 0 ∧
  df_Base_Tributavel_IRPJ df !! p = Some 0 ∧ df_Base_Adicional_IRPJ df !! p = Some 0 ∧
  df_IRPJ df !! p = Some 0 ∧ df_IRPJ_Adicional df !! p = Some 0.

(** The five columns of lines 240-249 are never written again. *)
Definition colunas_fixas (a : args) (ei : nat) (bruta liquida : list Qc)
    (df : data_frame) : Prop :=
  df_Mes df = seq 0 (ei + 1) ∧
  df_Fluxo_de_Caixa_Bruta df = bruta ∧ df_Fluxo_de_Caixa_Liquida df = liquida ∧
  df_PIS df = df_PIS (df_inicial a ei bruta liquida) ∧
  df_COFINS df = df_COFINS (df_inicial a ei bruta liquida).

(** The six tax columns keep one position per month. *)
Definition comprimentos_df (ei : nat) (df : data_frame) : Prop :=
  length (df_Base_Tributavel_CSSL df) = S ei ∧ length (df_CSSL df) = S ei ∧
  length (df_Base_Tributavel_IRPJ df) = S ei ∧
  length (df_Base_Adicional_IRPJ df) = S ei ∧
  length (df_IRPJ df) = S ei ∧ length (df_IRPJ_Adicional df) = S ei.

(** The invariant of the report loop after the months [pre]. *)
Definition inv_relatorio (a : args) (ei : nat) (bruta liquida : list Qc) (mx : nat)
    (pre : list nat) (df : data_frame) : Prop :=
  colunas_fixas a ei bruta liquida df ∧ comprimentos_df ei df ∧
  (∀ p, p ∈ pre →
     celulas a df p (soma_relatorio bruta p * (fator_relatorio_de a mx p).2)
                    (soma_relatorio bruta p * (fator_relatorio_de a mx p).1)) ∧
  (∀ p, p ∉ pre → (p ≤ ei)%nat → celulas_zero df p).

(** The factors (IRPJ, CSSL) of the extra row (lines 301-311). *)
Definition fator_extra_de (a : args) : Qc * Qc :=
  if bool_decide (lower (tipo_operacao a) = "aluguel") then (f032, f032)
  else (f008, f012).

(** ** Summary of the simulation ([app], lines 399-432) *)

(** [df_fluxos["Mês"].max()] (line 414). *)
Definition df_max_Mes (df : data_frame) : nat := foldr Nat.max 0%nat (df_Mes df).

(** [df[df["Mês"].between(lo, hi)][col]]: the cells of a column in the rows
    whose month is between [lo] and [hi], both included (line 414). *)
Definition entre (df : data_frame) (lo hi : nat) (col : list Qc) : list Qc :=
  (filter (λ mc : nat * Qc, (lo ≤ mc.1 ∧ mc.1 ≤ hi)%nat) (zip (df_Mes df) col)).*2.

(** The row of [df_totais] (lines 400-411). *)
Record totais : Type := Totais {
  Total_Pis : Qc;
  Total_Cofins : Qc;
  Total_CSSL : Qc;
  Total_IRPJ : Qc }.

Definition df_totais (df : data_frame) : totais :=
  {| Total_Pis := sum (df_PIS df);
     Total_Cofins := sum (df_COFINS df);
     Total_CSSL := sum (df_CSSL df);
     Total_IRPJ := sum (df_IRPJ df) |}.

(** The first row of [df_resumo] (lines 414-432). *)
Record resumo : Type := Resumo {
  Parcelas : Z;
  Total_Parcelamento : Qc;
  Total_Impostos : Qc;
  Receita_Liquida_Total : Qc }.

Definition df_resumo (df : data_frame) : resumo :=
  let hi := df_max_Mes df in
  let parcelas := length (filter (λ x : Qc, x ≠ 0) (df_Fluxo_de_Caixa_Bruta df)) in
  let impostos :=
    zip_with Qcplus
      (zip_with Qcplus
         (zip_with Qcplus (entre df 1 hi (df_PIS df)) (entre df 1 hi (df_COFINS df)))
         (entre df 1 hi (df_CSSL df)))
      (entre df 1 hi (df_IRPJ df)) in
  {| Parcelas := Z.of_nat parcelas - 1;
     Total_Parcelamento := sum (entre df 1 hi (df_Fluxo_de_Caixa_Bruta df));
     Total_Impostos := sum impostos;
     Receita_Liquida_Total := sum (entre df 1 hi (df_Fluxo_de_Caixa_Liquida df)) |}.

(** ** Vocabulary of the outcomes *)

(** The exception of line 63. *)
Definition tipo_invalido : exn :=
  ValueError "Tipo de operação inválido. Use 'aluguel' ou 'compra'.".

(** The exception of [max] on an empty list (line 299). *)
Definition max_vazio : exn := ValueError "max() arg is an empty sequence".

(** ** Evolution of the balance ([app], lines 665-731) *)

(** The outcome of the loop of lines 715-726: [.at[prev_idx, "Saldo"]] raises
    [KeyError] when the label [prev_idx] is not in the index. *)
Inductive evoluido (A : Type) : Type :=
| Feito (x : A)
| KeyError (rotulo : Z).
Arguments Feito {A} x.
Arguments KeyError {A} rotulo.

(** The three columns the loop fills; the index of the frame is 0, 1, ...
    after [reset_index] (line 663). *)
Record evolucao : Type := Evolucao {
  Inicio_Mes : list Qc;
  Saldo : list Qc;
  Rec_Liquida : list Qc }.

(** Lines 666-668 and 706-708: zeros, and the initial value in the rows of
    month 0. *)
Definition evolucao_inicial (linhas : list linha) (valor_emprestado : Qc) : evolucao :=
  let coluna :=
    (λ l, if bool_decide (Mes l = 0%nat) then valor_emprestado else 0) <$> linhas in
  {| Inicio_Mes := coluna; Saldo := coluna; Rec_Liquida := coluna |}.

(** Lines 716-726: the body of [for idx in df_parcelas_recuperacao.index]. *)
Definition passo_evolucao (tipo_operacao : string) (linhas : list linha) (idx : nat)
    (ev : evolucao) : evoluido evolucao :=
  match linhas !! idx with
  | None => Feito ev
  | Some l =>
      if bool_decide (Mes l = 0%nat) then Feito ev
      else
        match idx with
        | O => KeyError (-1)
        | S prev_idx =>
            let inicio_mes := Py.get (Saldo ev) prev_idx * (1 + cdi) in
            let rec_ir := Py.get (recuperacao_ir tipo_operacao linhas) idx in
            let saldo := inicio_mes + parcela l + rec_ir in
            Feito {| Inicio_Mes := <[idx := inicio_mes]> (Inicio_Mes ev);
                     Saldo := <[idx := saldo]> (Saldo ev);
                     Rec_Liquida := <[idx := parcela l + rec_ir]> (Rec_Liquida ev) |}
        end
  end.

Fixpoint evolui (tipo_operacao : string) (linhas : list linha) (idxs : list nat)
    (ev : evolucao) : evoluido evolucao :=
  match idxs with
  | [] => Feito ev
  | idx :: idxs' =>
      match passo_evolucao tipo_operacao linhas idx ev with
      | Feito ev' => evolui tipo_operacao linhas idxs' ev'
      | KeyError k => KeyError k
      end
  end.

(** Lines 687-726: the initial value and the columns after the loop. *)
Definition simular_saldo (tipo_operacao : string) (linhas : list linha)
  : evoluido evolucao :=
  let valor_emprestado := soma_ajustada tipo_operacao linhas in
  evolui tipo_operacao linhas (seq 0 (length linhas))
         (evolucao_inicial linhas valor_emprestado).

(** The three cells of row [i] after the loop, for a row that is not of
    month 0: the opening balance is the balance of the row before, compounded;
    the balance adds the instalment and its recovery; the net revenue is the
    instalment plus its recovery. *)
Definition linha_evoluida (tipo : string) (linhas : list linha) (ev : evolucao)
    (i : nat) (l : linha) : Prop :=
  ∃ k anterior rec_ir,
    i = S k ∧ Saldo ev !! k = Some anterior ∧
    recuperacao_ir tipo linhas !! i = Some rec_ir ∧
    Inicio_Mes ev !! i = Some (anterior * (1 + cdi)) ∧
    Saldo ev !! i = Some (anterior * (1 + cdi) + parcela l + rec_ir) ∧
    Rec_Liquida ev !! i = Some (parcela l + rec_ir).

Definition linha_inicial (ev : evolucao) (i : nat) (valor_emprestado : Qc) : Prop :=
  Inicio_Mes ev !! i = Some valor_emprestado ∧
  Saldo ev !! i = Some valor_emprestado ∧
  Rec_Liquida ev !! i = Some valor_emprestado.

(** A table whose first row is not month 0. *)
Definition linhas_sem_mes_0 : list linha := [Linha 1 (Q2Qc 100); Linha 2 (Q2Qc 100)].

(** ** Brazilian number format ([formatar_brasileiro], lines 9-16) *)

(** A cell of the table: a number ([int] or [float]) or anything else, of
    which only texts occur.  A text is the list of its characters. *)
Inductive celula : Type :=
  | Numero (valor : Qc)
  | Texto (s : list ascii).

(** The decimal digits of [str] of a natural number, most significant
    first. *)
Fixpoint chars_de_uint (d : Decimal.uint) : list ascii :=
  match d with
  | Decimal.Nil => []
  | Decimal.D0 d => "0"%char :: chars_de_uint d
  | Decimal.D1 d => "1"%char :: chars_de_uint d
  | Decimal.D2 d => "2"%char :: chars_de_uint d
  | Decimal.D3 d => "3"%char :: chars_de_uint d
  | Decimal.D4 d => "4"%char :: chars_de_uint d
  | Decimal.D5 d => "5"%char :: chars_de_uint d
  | Decimal.D6 d => "6"%char :: chars_de_uint d
  | Decimal.D7 d => "7"%char :: chars_de_uint d
  | Decimal.D8 d => "8"%char :: chars_de_uint d
  | Decimal.D9 d => "9"%char :: chars_de_uint d
  end.

Definition digitos (n : N) : list ascii := chars_de_uint (N.to_uint n).

(** The two digits that [.2f] prints after the point. *)
Definition digitos_2 (r : N) : list ascii :=
  digitos (r / 10) ++ digitos (r mod 10).

(** The [,] option of the format: a separator before every group of three
    digits, counted from the units.  [cs] holds the digits from the units
    up and [n] counts the digits of the group under way. *)
Fixpoint milhares (n : nat) (cs : list ascii) : list ascii :=
  match cs with
  | [] => []
  | c :: cs' =>
      if decide (n = 3%nat) then ","%char :: c :: milhares 1 cs'
      else c :: milhares (S n) cs'
  end.

(** ["{:,.2f}".format(k / 100)] for a whole number [k] of cents: the digits
    of [k] with the point before the last two.  This is what Python prints
    as long as binary64 holds [k / 100] within half a cent, which it does
    for amounts below 2^45; the statements about this text assume less than
    10^15 cents. *)
Definition formato_2f (k : Z) : list ascii :=
  let m := Z.abs_N k in
  (if bool_decide (k < 0)%Z then ["-"%char] else [])
  ++ reverse (milhares 0 (reverse (digitos (m / 100))))
  ++ "."%char :: digitos_2 (m mod 100).

(** [s.replace(a, b)] and [s.replace(a, "")] for a one-character [a]. *)
Definition replace (a b : ascii) (s : list ascii) : list ascii :=
  (λ c, if decide (c = a) then b else c) <$> s.

Definition remove (a : ascii) (s : list ascii) : list ascii :=
  filter (λ c, c ≠ a) s.

(** Line 15, from the number of cents that line 13 computes. *)
Definition formatar_centavos (k : Z) : list ascii :=
  replace "X" "." (replace "." "," (replace "," "X" (formato_2f k))).

Section formato.

(** The product [valor * 100] of line 13.  It is a binary64 product, rounded
    before [math.ceil] sees it, and it can lie above the exact product:
    0.07 * 100 is 7.000000000000001, so 0.07 is written "0,08".  The rounded
    product is therefore a parameter, not [v * 100]. *)
Variable vezes_100 : Qc → Qc.

Definition formatar_brasileiro (valor : celula) : celula :=
  match valor with
  | Numero v => Texto (formatar_centavos (Qceiling (vezes_100 v)))
  | Texto s => Texto s
  end.

(** Lines 581-582 on one column. *)
Definition formata_coluna (col : list celula) : list celula :=
  formatar_brasileiro <$> col.

End formato.

(** The product where binary64 computes it exactly, as it does at 0, 100 and
    12345.5, the values of the sample runs. *)
Definition vezes_100_exato (v : Qc) : Qc := v * Q2Qc 100.

(** ** Reading the table back ([app], line 659) *)

Fixpoint uint_de_chars (cs : list ascii) : option Decimal.uint :=
  match cs with
  | [] => Some Decimal.Nil
  | c :: cs' =>
      d ← uint_de_chars cs';
      if decide (c = "0"%char) then Some (Decimal.D0 d)
      else if decide (c = "1"%char) then Some (Decimal.D1 d)
      else if decide (c = "2"%char) then Some (Decimal.D2 d)
      else if decide (c = "3"%char) then Some (Decimal.D3 d)
      else if decide (c = "4"%char) then Some (Decimal.D4 d)
      else if decide (c = "5"%char) then Some (Decimal.D5 d)
      else if decide (c = "6"%char) then Some (Decimal.D6 d)
      else if decide (c = "7"%char) then Some (Decimal.D7 d)
      else if decide (c = "8"%char) then Some (Decimal.D8 d)
      else if decide (c = "9"%char) then Some (Decimal.D9 d)
      else None
  end.

(** A non-empty run of decimal digits. *)
Definition natural (cs : list ascii) : option N :=
  match cs with
  | [] => None
  | _ => N.of_uint <$> uint_de_chars cs
  end.

(** The text before the first [sep] and, when there is one, the text after
    it. *)
Fixpoint separa (sep : ascii) (cs : list ascii) : list ascii * option (list ascii) :=
  match cs with
  | [] => ([], None)
  | c :: cs' =>
      if decide (c = sep) then ([], Some cs')
      else let '(a, b) := separa sep cs' in (c :: a, b)
  end.

Definition Qc_de_N (n : N) : Qc := Qc_of_Z (Z.of_N n).

(** [float(s)] on the plain decimal literals: an optional minus sign, digits
    and, optionally, a point and more digits.  The other literals of Python
    (exponents, [inf], [nan], blanks, underscores, a missing integer or
    fractional part) are outside this model, which answers [None] for them
    as it does for the texts on which [astype(float)] raises. *)
Definition float_decimal (cs : list ascii) : option Qc :=
  let '(neg, corpo) :=
    match cs with
    | c :: r => if decide (c = "-"%char) then (true, r) else (false, cs)
    | [] => (false, cs)
    end in
  let '(int, frac) := separa "." corpo in
  i ← natural int;
  v ← match frac with
      | None => Some (Qc_de_N i)
      | Some fs =>
          f ← natural fs;
          Some (Qc_de_N i + Qc_de_N f / Qc_de_N (10 ^ N.of_nat (length fs)))
      end;
  Some (if neg : bool then - v else v).

(** [.str.replace('.', '').str.replace(',', '.').astype(float)] on one cell
    of a text column. *)
Definition texto_para_float (s : list ascii) : option Qc :=
  float_decimal (replace "," "." (remove "." s)).

(** One cell of the mask [df["Fluxo de Caixa Bruta"] != 0] of line 651: a
    text is never equal to the number 0. *)
Definition diferente_de_zero (c : celula) : bool :=
  match c with
  | Numero v => bool_decide (v ≠ 0)
  | Texto _ => true
  end.

(** The rows that a mask keeps. *)
Definition seleciona {A} (mascara : list bool) (linhas : list A) : list A :=
  snd <$> filter (λ p, p.1 = true) (zip mascara linhas).

(** The characters of a number before the separators are put in. *)
Definition sem_separador (c : ascii) : Prop :=
  c ≠ ","%char ∧ c ≠ "."%char ∧ c ≠ "X"%char.

Definition digito (c : ascii) : Prop :=
  c ∈ ["0"; "1"; "2"; "3"; "4"; "5"; "6"; "7"; "8"; "9"]%char.

(** What lines 15 and 659 do together to a text. *)
Definition ida_e_volta (s : list ascii) : list ascii :=
  replace "," "." (remove "."
    (replace "X" "." (replace "." "," (replace "," "X" s)))).

(** ** Login and navigation ([utils/auth.py] and the main script) *)

(** The values that these two files keep in [st.session_state]. *)
Inductive valor : Type :=
  | Bool (b : bool)
  | Str (s : string).

#[global] Instance valor_eq_dec : EqDecision valor.
Proof. solve_decision. Defined.

(** The truth value of [if v:]. *)
Definition verdadeiro (v : valor) : bool :=
  match v with
  | Bool b => b
  | Str s => bool_decide (s ≠ "")
  end.

(** [st.session_state], a dictionary; a key that is not there makes
    [session_state[k]] raise [KeyError], which the functions below answer
    with [None]. *)
Abbreviation session_state := (gmap string valor).

Definition users : gmap string string :=
  list_to_map [("OV", "principal"); ("FH", "principal");
               ("TEMI", "secundario"); ("TEMI1", "consulta")].

Definition authenticate (username password : string) : bool :=
  match users !! username with
  | Some p => bool_decide (p = password)
  | None => false
  end.

(** What the user did on the login form in one run of the script: the two
    text fields and whether the button "Entrar" was pressed. *)
Record entrada : Type := Entrada {
  username : string;
  password : string;
  entrar : bool
}.

(** How a run of the script ends: [st.rerun()] stops it and asks for a new
    run; otherwise the page shows the menu or the login form, the latter
    with or without the message "Usuário ou senha incorretos". *)
Inductive saida : Type :=
  | Rerun
  | Menu (menu_options : list string)
  | Login (erro : bool).

(** The three assignments that both branches of [login] make on success. *)
Definition autentica (e : entrada) (ss : session_state) : session_state :=
  <["senha" := Str (password e)]>
    (<["username" := Str (username e)]>
       (<["authenticated" := Bool true]> ss)).

(** The fallback button at the end of [login]. *)
Definition botao_entrar (e : entrada) (erro : bool) (ss : session_state)
  : session_state * saida :=
  if entrar e then
    if authenticate (username e) (password e) then (autentica e ss, Rerun)
    else (ss, Login true)
  else (ss, Login erro).

Definition login (e : entrada) (ss : session_state)
  : option (session_state * saida) :=
  let ss :=
    match ss !! "password_submitted" with
    | None => <["password_submitted" := Bool false]> ss
    | Some _ => ss
    end in
  submitted ← ss !! "password_submitted";
  if verdadeiro submitted then
    if authenticate (username e) (password e) then Some (autentica e ss, Rerun)
    else Some (botao_entrar e true (<["password_submitted" := Bool false]> ss))
  else Some (botao_entrar e false ss).

Definition logout (ss : session_state) : session_state :=
  let ss := <["authenticated" := Bool false]> ss in
  let ss := <["password_submitted" := Bool false]> ss in
  let ss := match ss !! "username" with
            | Some _ => delete "username" ss
            | None => ss
            end in
  match ss !! "senha" with
  | Some _ => delete "senha" ss
  | None => ss
  end.

Definition check_auth (ss : session_state) : session_state :=
  match ss !! "authenticated" with
  | None => <["authenticated" := Bool false]> ss
  | Some _ => ss
  end.

Definition paginas : list string := ["Premissas"; "Cockpit"; "Proposta"].

(** The sidebar of an authenticated session: the title reads
    [session_state['username']], the menu depends on
    [session_state['senha']]. *)
Definition sidebar (ss : session_state) : option (list string) :=
  _ ← ss !! "username";
  senha ← ss !! "senha";
  if bool_decide (senha = Str "principal")
     || bool_decide (senha = Str "secundario") then Some paginas
  else if bool_decide (senha = Str "consulta") then Some paginas
  else Some ["Help"].

(** One run of the main script. *)
Definition script (e : entrada) (ss : session_state)
  : option (session_state * saida) :=
  let ss := check_auth ss in
  a ← ss !! "authenticated";
  if verdadeiro a then
    menu_options ← sidebar ss;
    Some (ss, Menu menu_options)
  else login e ss.

(** The callbacks of the two widgets that have one; Streamlit calls the
    callback of the widget that was used and then runs the script. *)
Inductive callback : Type :=
  | on_click_logout
  | on_change_senha.

Definition chama (cb : option callback) (ss : session_state) : session_state :=
  match cb with
  | Some on_click_logout => logout ss
  | Some on_change_senha => <["password_submitted" := Bool true]> ss
  | None => ss
  end.

Definition interacao (cb : option callback) (e : entrada) (ss : session_state)
  : option (session_state * saida) :=
  script e (chama cb ss).

(** The sessions that a browser can be in: a new session is empty, and every
    interaction that does not raise leads to another one. *)
Inductive alcancavel : session_state → Prop :=
  | alcancavel_nova : alcancavel ∅
  | alcancavel_passo cb e ss ss' s :
      alcancavel ss →
      interacao cb e ss = Some (ss', s) →
      alcancavel ss'.

(** What holds of an authenticated session. *)
Definition sessao_coerente (ss : session_state) : Prop :=
  ∀ a, ss !! "authenticated" = Some a → verdadeiro a = true →
    ∃ u p, ss !! "username" = Some (Str u) ∧ ss !! "senha" = Some (Str p)
           ∧ authenticate u p = true.

(** A session that [check_auth] has just initialised, and a user who types
    the third entry of [users] and presses "Entrar". *)
Definition sessao_deslogada : session_state :=
  {["authenticated" := Bool false]}.

Definition entrada_temi : entrada := Entrada "TEMI" "secundario" true.

(** * Properties *)

(** Division and remainder of [x] by [d], as equations for [lia]. *)
Ltac divmod x d :=
  pose proof (Nat.div_mod_eq x d);
  pose proof (Nat.mod_upper_bound x d ltac:(lia)).

(** ** Tax calendar *)

Lemma impostos_meses_elem (n p : nat) :
  p ∈ impostos_meses n ↔ (4 ≤ p ≤ n ∧ (p - 1) mod 3 = 0)%nat.
Proof.
  unfold impostos_meses. rewrite list_elem_of_filter, elem_of_seq. lia.
Qed.

Lemma impostos_meses_S (n : nat) :
  impostos_meses (S n) =
  impostos_meses n ++ (if decide (tributavel (S n)) then [S n] else []).
Proof.
  unfold impostos_meses, tributavel.
  destruct (decide (n < 3)%nat) as [Hlt | Hge].
  - replace (S n + 1 - 4)%nat with 0%nat by lia.
    replace (n + 1 - 4)%nat with 0%nat by lia.
    simpl. case_decide; [lia | done].
  - replace (S n + 1 - 4)%nat with (S (n + 1 - 4)) by lia.
    rewrite seq_S, filter_app.
    replace (4 + (n + 1 - 4))%nat with (S n) by lia.
    f_equal. rewrite filter_cons, filter_nil.
    repeat case_decide; try done; lia.
Qed.

Lemma impostos_meses_fechado (n : nat) :
  impostos_meses n = (λ k, 4 + 3 * k)%nat <$> seq 0 ((n - 1) / 3).
Proof.
  induction n as [| n IH]; [done |].
  rewrite impostos_meses_S, IH.
  assert (S n - 1 = n)%nat as Hs by lia.
  divmod n 3%nat. divmod (n - 1)%nat 3%nat.
  case_decide as Ht; unfold tributavel in Ht; rewrite !Hs in *; clear Hs.
  - replace (n / 3)%nat with (S ((n - 1) / 3)) by lia.
    rewrite seq_S, fmap_app. f_equal. cbn [fmap list_fmap Nat.add]. f_equal. lia.
  - rewrite app_nil_r. do 2 f_equal.
    destruct n as [| n']; [done |]. lia.
Qed.

Lemma proximo_tributavel_spec (m : nat) :
  (m ≤ proximo_tributavel m)%nat ∧ tributavel (proximo_tributavel m) ∧
  ∀ m', (m ≤ m')%nat → tributavel m' → (proximo_tributavel m ≤ m')%nat.
Proof.
  funelim (proximo_tributavel m).
  - split_and!; [lia | done | auto].
  - destruct H as (Hle & Ht & Hmin). split_and!; [lia | done |].
    intros m' Hm' Htm'. apply Hmin; [| done].
    destruct (decide (m' = m)) as [-> | ?]; [done | lia].
Qed.

(** C9.  The recognition months of a schedule of [n] instalments are the
    months p with 4 <= p <= n and (p - 1) mod 3 = 0; listed in order, the
    month at position i is 4 + 3 i, so the list starts at 4 and goes up
    by 3. *)
Theorem impostos_meses_spec (n : nat) :
  (∀ p, p ∈ impostos_meses n ↔ (4 ≤ p ≤ n ∧ (p - 1) mod 3 = 0)%nat) ∧
  (∀ i p, impostos_meses n !! i = Some p ↔ (p = 4 + 3 * i ∧ p ≤ n)%nat) ∧
  (∀ i p q, impostos_meses n !! i = Some p → impostos_meses n !! S i = Some q →
            q = (p + 3)%nat).
Proof.
  assert (∀ i p, impostos_meses n !! i = Some p ↔ (p = 4 + 3 * i ∧ p ≤ n)%nat) as Hix.
  { intros i p. rewrite impostos_meses_fechado, list_lookup_fmap.
    divmod (n - 1)%nat 3%nat.
    destruct (decide (i < (n - 1) / 3)%nat) as [Hi | Hi].
    - rewrite (lookup_seq_lt _ _ _ Hi). simpl. split.
      + intros [= <-]. lia.
      + intros [-> _]. done.
    - rewrite lookup_seq_ge by lia. simpl. split; [done | lia]. }
  split_and!.
  - apply impostos_meses_elem.
  - exact Hix.
  - intros i p q Hp Hq. apply Hix in Hp, Hq. lia.
Qed.

(** C5.  A rental puts the extra flow at n + 1; a purchase puts it at the
    smallest month m > n with m >= 4 and (m - 1) mod 3 = 0; a purchase of 28
    instalments has it at 31. *)
Theorem extra_index_spec (tipo : string) (n : nat) :
  (lower tipo = "aluguel" → extra_index tipo n = Ok (n + 1)%nat) ∧
  (lower tipo = "compra" →
     ∃ m, extra_index tipo n = Ok m ∧ (n < m)%nat ∧ tributavel m ∧
          ∀ m', (n < m')%nat → tributavel m' → (m ≤ m')%nat) ∧
  extra_index "compra" 28 = Ok 31%nat.
Proof.
  unfold extra_index. split_and!.
  - intros ->. done.
  - intros ->. simpl.
    destruct (proximo_tributavel_spec (n + 1)) as (Hle & Ht & Hmin).
    eexists. split_and!; [done | lia | done |].
    intros m' Hm' Htm'. apply Hmin; [lia | done].
  - done.
Qed.

(** The calendar as the application calls it: a rental of 36 instalments
    and a purchase of 28. *)
Lemma extra_index_spec_witness :
  extra_index "Aluguel" 36 = Ok 37%nat ∧
  ∃ m, extra_index "Compra" 28 = Ok m ∧ (28 < m)%nat ∧ tributavel m.
Proof.
  split.
  - apply (extra_index_spec "Aluguel" 36). reflexivity.
  - destruct (proj1 (proj2 (extra_index_spec "Compra" 28)) eq_refl)
      as (m & Hm & Hlt & Ht & _).
    exists m. auto.
Defined.

(** C6, as the specification states it, fails for a rental: one instalment
    puts the extra flow at month 2, which is not a recognition month. *)
Lemma extra_index_aluguel_nao_tributavel :
  extra_index "aluguel" 1 = Ok 2%nat ∧ ¬ tributavel 2.
Proof. split; [done |]. unfold tributavel. lia. Qed.

(** C6, amended.  The extra index is always after the last instalment; for
    a purchase it is a recognition month; for a rental it is n + 1, a
    recognition month exactly when n >= 3 is a multiple of 3. *)
Theorem extra_index_invariante (tipo : string) (n e : nat) :
  extra_index tipo n = Ok e →
  (n < e)%nat ∧
  (lower tipo = "compra" → tributavel e) ∧
  (lower tipo = "aluguel" → e = (n + 1)%nat ∧ (tributavel e ↔ (3 ≤ n ∧ n mod 3 = 0)%nat)).
Proof.
  unfold extra_index. intros He.
  destruct (proximo_tributavel_spec (n + 1)) as (Hle & Ht & _).
  repeat case_bool_decide; simplify_eq.
  - split_and!; [lia | done | congruence].
  - split_and!; [lia | congruence |].
    intros _. split; [done |]. unfold tributavel.
    replace (n + 1 - 1)%nat with n by lia. lia.
Qed.

Lemma extra_index_invariante_witness :
  (36 < 37)%nat ∧ (tributavel 37 ↔ (3 ≤ 36 ∧ 36 mod 3 = 0)%nat).
Proof.
  pose proof (extra_index_invariante "Aluguel" 36 37 eq_refl) as (Hlt & _ & Hal).
  split; [exact Hlt |]. apply (Hal eq_refl).
Defined.

(** ** Python runtime lemmas *)

Lemma slice_insert_ge {A} (xs : list A) (lo hi m : nat) (v : A) :
  (hi ≤ m)%nat → slice (<[m := v]> xs) lo hi = slice xs lo hi.
Proof.
  intros Hm. unfold slice.
  destruct (decide (lo ≤ m)%nat) as [Hlo | Hlo].
  - rewrite drop_insert_ge by done. apply take_insert_ge. lia.
  - replace (hi - lo)%nat with 0%nat by lia. done.
Qed.

Lemma slice_lookup {A} (xs : list A) (lo hi : nat) (x : A) :
  x ∈ slice xs lo hi → ∃ i, (lo ≤ i)%nat ∧ xs !! i = Some x.
Proof.
  unfold slice. rewrite elem_of_take. intros (i & Hi & _).
  rewrite lookup_drop in Hi. exists (lo + i)%nat. split; [lia | done].
Qed.

Lemma get_insert_eq (xs : list Qc) (i : nat) (v : Qc) :
  (i < length xs)%nat → Py.get (<[i := v]> xs) i = v.
Proof. intros Hi. unfold Py.get. by rewrite list_lookup_insert_eq. Qed.

(** Reads of a list after writes at known positions. *)
Ltac busca :=
  repeat first
    [ rewrite list_lookup_insert_eq by (rewrite ?length_insert, ?length_replicate; lia)
    | rewrite list_lookup_insert_ne by lia
    | rewrite lookup_replicate_2 by lia ].

(** A computed result is compared with a rational through the decidable
    equality of [Qc]. *)
Lemma result_Qc_eq (r : result Qc) (q : Qc) :
  (match r with Ok x => bool_decide (x = q) | Raise _ => false end) → r = Ok q.
Proof. destruct r as [x |]; [| done]. by intros ->%bool_decide_unpack. Qed.

Lemma option_Qc_eq (o : option Qc) (q : Qc) :
  (match o with Some x => bool_decide (x = q) | None => false end) → o = Some q.
Proof. destruct o as [x |]; [| done]. by intros ->%bool_decide_unpack. Qed.

Lemma max_nat_elem (xs : list nat) (x : nat) :
  x ∈ xs → ∃ mx, max_nat xs = Ok mx.
Proof. destruct xs; [by intros ?%elem_of_nil | eauto]. Qed.

Lemma for_each_seq_inv {S : Type} (I : nat → S → Prop) (body : nat → S → result S)
    (len start : nat) (st0 : S) :
  I start st0 →
  (∀ m st, (start ≤ m < start + len)%nat → I m st →
           ∃ st', body m st = Ok st' ∧ I (Datatypes.S m) st') →
  ∃ st', for_each (seq start len) body st0 = Ok st' ∧ I (start + len)%nat st'.
Proof.
  revert start st0. induction len as [| len IH]; intros start st0 H0 Hstep.
  - exists st0. by rewrite Nat.add_0_r.
  - destruct (Hstep start st0) as (st1 & Hb & H1); [lia | done |].
    destruct (IH (Datatypes.S start) st1) as (st' & Hf & H'); [done | |].
    { intros m st Hm. apply Hstep. lia. }
    exists st'. simpl. rewrite Hb. simpl. split; [done |].
    by replace (start + Datatypes.S len)%nat with (Datatypes.S start + len)%nat by lia.
Qed.

(** ** Rational arithmetic *)

Lemma Qcopp_0 : - 0 = 0.
Proof. ring. Qed.

Lemma Qcmult_nonneg (x y : Qc) : 0 ≤ x → 0 ≤ y → 0 ≤ x * y.
Proof.
  intros Hx Hy. rewrite <- (Qcmult_0_l y). by apply Qcmult_le_compat_r.
Qed.

Lemma Qcopp_nonpos (x : Qc) : 0 ≤ x → - x ≤ 0.
Proof. intros Hx. rewrite <- Qcopp_0. by apply Qcopp_le_compat. Qed.

Lemma foldl_Qcplus_nonneg (xs : list Qc) (acc : Qc) :
  0 ≤ acc → (∀ x, x ∈ xs → 0 ≤ x) → 0 ≤ foldl Qcplus acc xs.
Proof.
  revert acc. induction xs as [| x xs IH]; intros acc Hacc Hxs; [done |].
  simpl. apply IH.
  - apply Qcplus_nonneg_nonneg; [done |]. apply Hxs. left.
  - intros y Hy. apply Hxs. by right.
Qed.

Lemma sum_nonneg (xs : list Qc) : (∀ x, x ∈ xs → 0 ≤ x) → 0 ≤ sum xs.
Proof. apply foldl_Qcplus_nonneg. apply Qcle_refl. Qed.

Lemma f032_nonneg : 0 ≤ f032.
Proof. compute_done. Qed.
Lemma f012_nonneg : 0 ≤ f012.
Proof. compute_done. Qed.
Lemma f008_nonneg : 0 ≤ f008.
Proof. compute_done. Qed.

(** ** Cash-flow builder *)

Lemma fatores_Ok (a : args) (mes : nat) :
  fatores a mes =
  Ok (if bool_decide (mes ∈ impostos_meses (num_parcelas a)) then fator_de a mes
      else (0, 0)).
Proof.
  unfold fatores, fator_de.
  destruct (bool_decide (lower (tipo_operacao a) = "aluguel")); [| by repeat case_bool_decide].
  case_bool_decide as Hin; [| done].
  destruct (max_nat_elem _ _ Hin) as [mx ->]. simpl. by case_bool_decide.
Qed.

Lemma impostos_do_mes_insert (a : args) (p m : nat) (fs : Qc * Qc) (bruta : list Qc)
    (v : Qc) :
  (p ≤ m)%nat →
  impostos_do_mes a p fs (<[m := v]> bruta) = impostos_do_mes a p fs bruta.
Proof. intros Hp. unfold impostos_do_mes. by rewrite !slice_insert_ge. Qed.

Lemma impostos_do_mes_fora (a : args) (p : nat) (fs : Qc * Qc) (bruta : list Qc) :
  p ∉ impostos_meses (num_parcelas a) → impostos_do_mes a p fs bruta = (0, 0, 0, 0).
Proof. intros Hp. unfold impostos_do_mes. by rewrite bool_decide_eq_false_2. Qed.

Section construtor_provas.

Context (a : args) (ei : nat) (pmt_bruta : Qc).

Lemma inv_parcelas_inicio :
  inv_parcelas a ei pmt_bruta 1 (fluxos_iniciais a ei pmt_bruta).
Proof.
  unfold inv_parcelas, comprimentos, mes_inicial, mes_zero, bruta_nao_negativa,
    fluxos_iniciais.
  simpl.
  split_and!; rewrite ?length_insert, ?length_replicate; try lia;
    try (busca; done).
  - intros p Hp. split_and!; busca; done.
  - intros Hpmt Hinf. split; [done |]. intros p x Hp.
    rewrite list_lookup_insert_ne by lia.
    intros [-> _]%lookup_replicate. apply Qcle_refl.
Qed.

Lemma inv_parcelas_passo (k : nat) (st : fluxos) :
  (1 ≤ k ≤ ei)%nat → inv_parcelas a ei pmt_bruta k st →
  ∃ st', passo_parcela a k st = Ok st' ∧ inv_parcelas a ei pmt_bruta (S k) st'.
Proof.
  intros Hk (Hlen & H0 & Hdone & Hzero & Hsign).
  unfold passo_parcela. rewrite fatores_Ok. simpl.
  eexists. split; [done |].
  set (fs := if bool_decide (k ∈ impostos_meses (num_parcelas a))
             then fator_de a k else (0, 0)).
  assert (∀ bruta, impostos_do_mes a k fs bruta
                   = impostos_do_mes a k (fator_de a k) bruta) as Hfs.
  { intros bruta. unfold fs. case_bool_decide as Hin; [done |].
    by rewrite !impostos_do_mes_fora. }
  destruct Hlen as (L1 & L2 & L3 & L4 & L5 & L6 & L7 & L8).
  unfold inv_parcelas, comprimentos, mes_inicial, mes_gravado, mes_zero,
    bruta_nao_negativa, grava_parcela in *.
  simpl. split_and!; rewrite ?length_insert; try done.
  - rewrite !list_lookup_insert_ne by lia. tauto.
  - rewrite !list_lookup_insert_ne by lia. tauto.
  - rewrite !list_lookup_insert_ne by lia. tauto.
  - rewrite !list_lookup_insert_ne by lia. tauto.
  - rewrite !list_lookup_insert_ne by lia. tauto.
  - rewrite !list_lookup_insert_ne by lia. tauto.
  - rewrite !list_lookup_insert_ne by lia. tauto.
  - rewrite !list_lookup_insert_ne by lia. tauto.
  - intros p Hp. destruct (decide (p = k)) as [-> | Hne].
    + rewrite !list_lookup_insert_eq by lia.
      rewrite get_insert_eq by lia. rewrite !Hfs.
      eexists. split_and!; done.
    + rewrite !list_lookup_insert_ne by lia.
      rewrite impostos_do_mes_insert by lia. apply Hdone. lia.
  - intros p Hp. rewrite !list_lookup_insert_ne by lia. apply Hzero. lia.
  - intros Hpmt Hinf. destruct (Hsign Hpmt Hinf) as [Hat Hbr].
    assert (0 ≤ (if bool_decide (1 < k ∧ (k - 1) mod 12 = 0)%nat
                 then pmt_atual st * (1 + inflacao_anual a) else pmt_atual st))
      as Hnovo.
    { case_bool_decide; [| done]. apply Qcmult_nonneg; [done |].
      apply Qcplus_nonneg_nonneg; [compute_done | done]. }
    split; [done |]. intros p x Hp.
    destruct (decide (p = k)) as [-> | Hne].
    + rewrite list_lookup_insert_eq by lia. by intros [= <-].
    + rewrite list_lookup_insert_ne by lia. by apply Hbr.
Qed.

Lemma passo_zero_id (m : nat) (st : fluxos) :
  mes_zero st m → passo_zero m st = Ok st.
Proof.
  intros (H1 & H2 & H3 & H4 & H5 & H6 & H7 & H8). destruct st. simpl in *.
  unfold passo_zero. simpl. by rewrite !list_insert_id.
Qed.

Lemma for_each_passo_zero (start len : nat) (st : fluxos) :
  (∀ m, (start ≤ m < start + len)%nat → mes_zero st m) →
  for_each (seq start len) passo_zero st = Ok st.
Proof.
  intros Hz.
  destruct (for_each_seq_inv (λ _ st', st' = st) passo_zero len start st)
    as (st' & Hf & ->); [done | | done].
  intros m ? Hm ->. exists st. split; [| done]. apply passo_zero_id. by apply Hz.
Qed.

End construtor_provas.

(** What the builder returns: it never raises, and each month of the
    result holds the cells the loop, the zero fill or the extra flow wrote. *)
Lemma calcular_fluxos_spec (a : args) (ei : nat) (pmt_bruta : Qc) :
  (num_parcelas a < ei)%nat →
  ∃ bruta liquida c,
    calcular_fluxos_com_impostos a ei pmt_bruta = Ok (bruta, liquida, c) ∧
    (∀ p, (1 ≤ p ≤ num_parcelas a)%nat →
       ∃ x, bruta !! p = Some x ∧
            PIS c !! p = Some (- (x * aliquota_pis a)) ∧
            COFINS c !! p = Some (- (x * aliquota_cofins a)) ∧
            quatro c p (impostos_do_mes a p (fator_de a p) bruta)) ∧
    (∀ p, (p = 0 ∨ num_parcelas a < p < ei)%nat →
       PIS c !! p = Some 0 ∧ COFINS c !! p = Some 0 ∧ quatro c p (0, 0, 0, 0)) ∧
    (PIS c !! ei = Some 0 ∧ COFINS c !! ei = Some 0 ∧
     quatro c ei (fluxo_extra a ei bruta)) ∧
    (∀ p, (num_parcelas a < p ≤ ei)%nat → bruta !! p = Some 0) ∧
    (0 ≤ pmt_bruta → 0 ≤ inflacao_anual a →
     ∀ p x, (1 ≤ p)%nat → bruta !! p = Some x → 0 ≤ x).
Proof.
  intros Hei. unfold calcular_fluxos_com_impostos.
  destruct (for_each_seq_inv (inv_parcelas a ei pmt_bruta) (passo_parcela a)
              (num_parcelas a) 1 (fluxos_iniciais a ei pmt_bruta))
    as (st & -> & Hlen & H0 & Hdone & Hzero & Hsign).
  { apply inv_parcelas_inicio. }
  { intros m st Hm. apply inv_parcelas_passo. lia. }
  simpl. rewrite for_each_passo_zero by (intros m Hm; apply Hzero; lia).
  simpl.
  destruct Hlen as (L1 & L2 & L3 & L4 & L5 & L6 & L7 & L8).
  destruct (Hzero ei ltac:(lia)) as (Z1 & Z2 & Z3 & Z4 & Z5 & Z6 & Z7 & Z8).
  rewrite (list_insert_id (fluxo_bruta st)), (list_insert_id (custos_pis st)),
    (list_insert_id (custos_cofins st)) by done.
  do 3 eexists. split; [done |]. unfold quatro. simpl. split_and!.
  - intros p Hp. destruct (Hdone p ltac:(lia)) as (x & Hx & Hpis & Hcof & Ht).
    simpl in Ht. destruct Ht as (T1 & T2 & T3 & T4 & _).
    exists x. busca. done.
  - intros p Hp. busca. destruct Hp as [-> | Hp].
    + destruct H0 as (_ & _ & ? & ? & ? & ? & ? & ?). done.
    + destruct (Hzero p ltac:(lia)) as (_ & _ & ? & ? & ? & ? & ? & ?). done.
  - done.
  - done.
  - by busca.
  - by busca.
  - by busca.
  - by busca.
  - intros p Hp. by destruct (Hzero p ltac:(lia)) as (? & _).
  - intros Hpmt Hinf. by destruct (Hsign Hpmt Hinf) as [_ ?].
Qed.

Lemma extra_index_Ok (tipo : string) (n e : nat) :
  extra_index tipo n = Ok e →
  (n < e)%nat ∧ (lower tipo = "compra" ∨ lower tipo = "aluguel").
Proof.
  unfold extra_index. intros He.
  destruct (proximo_tributavel_spec (n + 1)) as (Hle & _).
  repeat case_bool_decide; simplify_eq; split; auto; lia.
Qed.

Lemma impostos_do_mes_dentro (a : args) (p : nat) (fs : Qc * Qc) (bruta : list Qc) :
  p ∈ impostos_meses (num_parcelas a) →
  impostos_do_mes a p fs bruta =
  impostos_com_fatores a (sum (slice bruta (p - 3) p)) fs.1 fs.2.
Proof. intros Hp. unfold impostos_do_mes. by rewrite bool_decide_eq_true_2. Qed.

Lemma fluxo_extra_casos (a : args) (ei : nat) (bruta : list Qc) :
  fluxo_extra a ei bruta =
  if bool_decide (3 ≤ num_parcelas a)%nat then
    if bool_decide (lower (tipo_operacao a) = "aluguel")
    then impostos_com_fatores a (sum (slice bruta (ei - 3) ei)) f032 f032
    else impostos_com_fatores a (sum (slice bruta (ei - 3) ei)) f008 f012
  else (0, 0, 0, 0).
Proof. unfold fluxo_extra. by repeat case_bool_decide. Qed.

Lemma base_adicional_nonneg (a : args) (base : Qc) : 0 ≤ base_adicional_de a base.
Proof.
  unfold base_adicional_de. case_bool_decide as Hb; [| apply Qcle_refl].
  by apply Qcle_minus_iff in Hb.
Qed.

Lemma impostos_com_fatores_sinais (a : args) (soma fi fc : Qc) :
  0 ≤ aliquota_irpj a → 0 ≤ aliquota_cssl a → 0 ≤ aliquota_adicional_irpj a →
  0 ≤ soma → 0 ≤ fi → 0 ≤ fc →
  let t := impostos_com_fatores a soma fi fc in
  t.1.1.1 ≤ 0 ∧ t.1.1.2 ≤ 0 ∧ 0 ≤ t.1.2 ∧ 0 ≤ t.2.
Proof.
  intros Hirpj Hcssl Had Hs Hfi Hfc. simpl.
  pose proof (base_adicional_nonneg a (soma * fi)).
  split_and!; auto using Qcopp_nonpos, Qcmult_nonneg, Qcplus_nonneg_nonneg.
Qed.

Lemma fator_de_nonneg (a : args) (p : nat) : 0 ≤ (fator_de a p).1 ∧ 0 ≤ (fator_de a p).2.
Proof.
  unfold fator_de. repeat case_bool_decide; simpl;
    auto using f032_nonneg, f012_nonneg, f008_nonneg.
Qed.

Lemma soma_slice_nonneg (bruta : list Qc) (lo hi : nat) :
  (1 ≤ lo)%nat → (∀ p x, (1 ≤ p)%nat → bruta !! p = Some x → 0 ≤ x) →
  0 ≤ sum (slice bruta lo hi).
Proof.
  intros Hlo Hbr. apply sum_nonneg. intros x (i & Hi & Hx)%slice_lookup.
  apply (Hbr i); [lia | done].
Qed.

(** C2.  The builder never raises, and in what it returns: at a recognition
    month the CSSL cost, the IRPJ cost, the IRPJ base and the IRPJ surtax base
    come from the sum of the three gross flows before it with the factors
    32% and 32% for a rental, 32% and 32% for a purchase before the last
    instalment, 8% (IRPJ) and 12% (CSSL) for a purchase at the last instalment;
    at every other month before the extra flow the four are zero. *)
Theorem fatores_do_construtor (a : args) (ei : nat) (pmt_bruta : Qc) :
  extra_index (tipo_operacao a) (num_parcelas a) = Ok ei →
  ∃ bruta liquida c,
    calcular_fluxos_com_impostos a ei pmt_bruta = Ok (bruta, liquida, c) ∧
    ∀ p,
      let soma := sum (slice bruta (p - 3) p) in
      (p ∈ impostos_meses (num_parcelas a) →
         (lower (tipo_operacao a) = "aluguel" →
            quatro c p (impostos_com_fatores a soma f032 f032)) ∧
         (lower (tipo_operacao a) = "compra" → (p < num_parcelas a)%nat →
            quatro c p (impostos_com_fatores a soma f032 f032)) ∧
         (lower (tipo_operacao a) = "compra" → p = num_parcelas a →
            quatro c p (impostos_com_fatores a soma f008 f012))) ∧
      (p ∉ impostos_meses (num_parcelas a) → (p < ei)%nat → quatro c p (0, 0, 0, 0)).
Proof.
  intros [Hei _]%extra_index_Ok.
  destruct (calcular_fluxos_spec a ei pmt_bruta Hei)
    as (bruta & liquida & c & Hc & Hparc & Hzero & _).
  exists bruta, liquida, c. split; [done |]. intros p soma. split.
  - intros Hin. pose proof Hin as Hp%impostos_meses_elem.
    destruct (Hparc p ltac:(lia)) as (x & _ & _ & _ & Hq).
    rewrite impostos_do_mes_dentro in Hq by done. fold soma in Hq.
    unfold fator_de in Hq. split_and!.
    + intros Hal. by rewrite bool_decide_eq_true_2 in Hq.
    + intros Hco Hlt. rewrite Hco in Hq. simpl in Hq.
      by rewrite bool_decide_eq_true_2 in Hq.
    + intros Hco ->. rewrite Hco in Hq. simpl in Hq.
      by rewrite bool_decide_eq_false_2 in Hq by lia.
  - intros Hout Hp.
    destruct (decide (1 ≤ p ≤ num_parcelas a)%nat) as [Hm | Hm].
    + destruct (Hparc p Hm) as (x & _ & _ & _ & Hq).
      by rewrite impostos_do_mes_fora in Hq.
    + apply Hzero. lia.
Qed.

Lemma fatores_do_construtor_witness :
  ∃ bruta liquida c,
    calcular_fluxos_com_impostos compra_5 7 (Q2Qc 100) = Ok (bruta, liquida, c) ∧
    quatro c 4 (impostos_com_fatores compra_5 (sum (slice bruta 1 4)) f032 f032) ∧
    quatro c 5 (0, 0, 0, 0).
Proof.
  destruct (fatores_do_construtor compra_5 7 (Q2Qc 100) eq_refl)
    as (bruta & liquida & c & Hc & Hp).
  exists bruta, liquida, c. split; [exact Hc |]. split.
  - apply (Hp 4%nat); [compute_done | reflexivity | simpl; lia].
  - apply (Hp 5%nat); [compute_done | lia].
Defined.

(** C10.  With a payment, an inflation, tax rates and an exemption threshold
    that are not negative, the builder returns a schedule in which, at every
    month 0..extra_index, the PIS, COFINS, CSSL and IRPJ costs are at most 0
    and the IRPJ base and surtax base are at least 0. *)
Theorem sinais_do_construtor (a : args) (ei : nat) (pmt_bruta : Qc) :
  extra_index (tipo_operacao a) (num_parcelas a) = Ok ei →
  0 ≤ pmt_bruta → 0 ≤ inflacao_anual a →
  0 ≤ aliquota_pis a → 0 ≤ aliquota_cofins a →
  0 ≤ aliquota_irpj a → 0 ≤ aliquota_cssl a →
  0 ≤ aliquota_adicional_irpj a → 0 ≤ limite_isencao_irpj a →
  ∃ bruta liquida c,
    calcular_fluxos_com_impostos a ei pmt_bruta = Ok (bruta, liquida, c) ∧
    ∀ p, (p ≤ ei)%nat → sinais_do_mes c p.
Proof.
  intros [Hei _]%extra_index_Ok Hpmt Hinf Hpis Hcof Hirpj Hcssl Had _.
  destruct (calcular_fluxos_spec a ei pmt_bruta Hei)
    as (bruta & liquida & c & Hc & Hparc & Hzero & Hextra & _ & Hbr).
  specialize (Hbr Hpmt Hinf).
  exists bruta, liquida, c. split; [done |]. intros p Hp. unfold sinais_do_mes.
  assert (0 ≤ 0) as H00 by apply Qcle_refl.
  destruct (decide (1 ≤ p ≤ num_parcelas a)%nat) as [Hm | Hm];
    [| destruct (decide (p = ei)) as [-> | Hne]].
  - destruct (Hparc p Hm) as (x & Hx & Hp1 & Hp2 & Hq1 & Hq2 & Hq3 & Hq4).
    assert (0 ≤ x) as Hx0 by (apply (Hbr p); [lia | done]).
    do 6 eexists. split_and!; try done;
      try (apply Qcopp_nonpos, Qcmult_nonneg; done).
    all: destruct (decide (p ∈ impostos_meses (num_parcelas a))) as [Hin | Hout];
      [ rewrite impostos_do_mes_dentro by done
      | rewrite impostos_do_mes_fora by done; done ].
    all: pose proof Hin as Hin'%impostos_meses_elem.
    all: apply impostos_com_fatores_sinais; try done;
      try apply fator_de_nonneg; apply soma_slice_nonneg; [lia | done].
  - destruct Hextra as (Hp1 & Hp2 & Hq1 & Hq2 & Hq3 & Hq4).
    do 6 eexists. split_and!; try done.
    all: rewrite fluxo_extra_casos; repeat case_bool_decide; try done.
    all: apply impostos_com_fatores_sinais; try done;
      auto using f032_nonneg, f012_nonneg, f008_nonneg;
      apply soma_slice_nonneg; [lia | done].
  - destruct (Hzero p ltac:(lia)) as (Hp1 & Hp2 & Hq1 & Hq2 & Hq3 & Hq4).
    do 6 eexists. split_and!; done.
Qed.

Lemma sinais_do_construtor_witness :
  ∃ bruta liquida c,
    calcular_fluxos_com_impostos compra_5 7 (Q2Qc 100) = Ok (bruta, liquida, c) ∧
    sinais_do_mes c 4 ∧ sinais_do_mes c 7.
Proof.
  destruct (sinais_do_construtor compra_5 7 (Q2Qc 100) eq_refl)
    as (bruta & liquida & c & Hc & Hp); try compute_done.
  exists bruta, liquida, c. split; [exact Hc |].
  split; apply Hp; lia.
Defined.

(** ** Goal seek and simulation *)

Lemma impostos_meses_vazio (n : nat) : (n ≤ 3)%nat → impostos_meses n = [].
Proof.
  intros Hn. unfold impostos_meses.
  by replace (n + 1 - 4)%nat with 0%nat by lia.
Qed.

Lemma montar_df_sem_impostos (a : args) (ei : nat) (bruta liquida : list Qc) :
  (num_parcelas a ≤ 3)%nat →
  montar_df a ei bruta liquida = Raise (ValueError "max() arg is an empty sequence").
Proof.
  intros Hn. unfold montar_df, relatorio_extra.
  by rewrite impostos_meses_vazio.
Qed.

Section simular_emprestimo_provas.

Variable npf_irr : list Qc → option Qc.
Variable npf_pmt : Qc → nat → Qc → Qc.
Variable root_scalar : (Qc → result Qc) → Qc → Qc → option Qc.

(** C8.  The objective never raises: it is the internal rate of return of the
    net flows of the built schedule minus the target rate when that rate is
    defined, and -1 minus the target rate, a negative number for a target
    that is not negative, when it is not. *)
Theorem funcao_goal_seek_impostos_spec (a : args) (ei : nat) (pmt_bruta : Qc) :
  extra_index (tipo_operacao a) (num_parcelas a) = Ok ei →
  ∃ bruta liquida c,
    calcular_fluxos_com_impostos a ei pmt_bruta = Ok (bruta, liquida, c) ∧
    (∀ tir, npf_irr liquida = Some tir →
       funcao_goal_seek_impostos npf_irr a ei pmt_bruta = Ok (tir - tir_desejada a)) ∧
    (npf_irr liquida = None →
       funcao_goal_seek_impostos npf_irr a ei pmt_bruta = Ok (- 1 - tir_desejada a)) ∧
    (0 ≤ tir_desejada a → - 1 - tir_desejada a < 0).
Proof.
  intros [Hei _]%extra_index_Ok.
  destruct (calcular_fluxos_spec a ei pmt_bruta Hei) as (bruta & liquida & c & Hc & _).
  exists bruta, liquida, c. unfold funcao_goal_seek_impostos. rewrite Hc. simpl.
  split_and!; [done | by intros tir -> | by intros -> |].
  intros Ht. apply Qclt_minus_iff.
  replace (0 + - (- 1 - tir_desejada a)) with (1 + tir_desejada a) by ring.
  apply Qcplus_pos_nonneg; [compute_done | done].
Qed.

(** C3, on the code.  With one or two instalments the builder leaves the four
    income-tax cells of the extra month at zero, and yet the simulation never
    returns: once a payment is found, line 299 takes the maximum of the empty
    list of recognition months and raises. *)
Theorem simular_emprestimo_poucas_parcelas (a : args) :
  (num_parcelas a = 1 ∨ num_parcelas a = 2)%nat →
  (∀ ei pmt_bruta, extra_index (tipo_operacao a) (num_parcelas a) = Ok ei →
     ∃ bruta liquida c,
       calcular_fluxos_com_impostos a ei pmt_bruta = Ok (bruta, liquida, c) ∧
       quatro c ei (0, 0, 0, 0)) ∧
  (∀ r, simular_emprestimo npf_irr npf_pmt root_scalar a ≠ Ok r) ∧
  (∀ ei pmt_otimizada,
     extra_index (tipo_operacao a) (num_parcelas a) = Ok ei →
     goal_seek npf_irr npf_pmt root_scalar a ei = Ok pmt_otimizada →
     simular_emprestimo npf_irr npf_pmt root_scalar a =
     Raise (ValueError "max() arg is an empty sequence")).
Proof.
  intros Hn.
  assert (∀ ei pmt_otimizada,
     extra_index (tipo_operacao a) (num_parcelas a) = Ok ei →
     goal_seek npf_irr npf_pmt root_scalar a ei = Ok pmt_otimizada →
     simular_emprestimo npf_irr npf_pmt root_scalar a =
     Raise (ValueError "max() arg is an empty sequence")) as Hraise.
  { intros ei pmt He Hg. unfold simular_emprestimo. rewrite He. simpl.
    rewrite Hg. simpl.
    destruct (calcular_fluxos_spec a ei pmt) as (bruta & liquida & c & -> & _).
    { by apply extra_index_Ok in He as [? _]. }
    simpl. rewrite montar_df_sem_impostos by lia. done. }
  split_and!.
  - intros ei pmt_bruta [Hei _]%extra_index_Ok.
    destruct (calcular_fluxos_spec a ei pmt_bruta Hei)
      as (bruta & liquida & c & Hc & _ & _ & (_ & _ & Hq) & _).
    exists bruta, liquida, c. split; [done |].
    rewrite fluxo_extra_casos in Hq.
    by rewrite bool_decide_eq_false_2 in Hq by lia.
  - intros r Hr.
    destruct (extra_index (tipo_operacao a) (num_parcelas a)) as [ei |] eqn:He;
      [| by unfold simular_emprestimo in Hr; rewrite He in Hr].
    destruct (goal_seek npf_irr npf_pmt root_scalar a ei) as [pmt |] eqn:Hg.
    + by rewrite (Hraise ei pmt) in Hr.
    + unfold simular_emprestimo in Hr. rewrite He in Hr. simpl in Hr.
      by rewrite Hg in Hr.
  - exact Hraise.
Qed.

End simular_emprestimo_provas.

Lemma funcao_goal_seek_impostos_spec_witness :
  ∃ tir, funcao_goal_seek_impostos irr_uma_parcela aluguel_1 2 1
         = Ok (tir - tir_desejada aluguel_1).
Proof.
  destruct (funcao_goal_seek_impostos_spec irr_uma_parcela aluguel_1 2 1 eq_refl)
    as (bruta & liquida & c & Hc & Hsome & _).
  eexists. apply Hsome. reflexivity.
Defined.

Lemma simular_emprestimo_poucas_parcelas_witness :
  simular_emprestimo irr_uma_parcela pmt_price root_scalar_meio aluguel_1 =
  Raise (ValueError "max() arg is an empty sequence").
Proof.
  apply (simular_emprestimo_poucas_parcelas irr_uma_parcela pmt_price root_scalar_meio
           aluguel_1 (or_introl eq_refl)) with (ei := 2%nat) (pmt_otimizada := Q2Qc 1.5).
  - reflexivity.
  - apply result_Qc_eq. vm_compute. exact I.
Defined.

(** ** Root search *)



Lemma mapM_result_Ok {A B} (f : A → result B) (xs : list A) :
  (∀ x, ∃ y, f x = Ok y) →
  ∃ ys, mapM f xs = Ok ys ∧ length ys = length xs ∧
        ∀ i x, xs !! i = Some x → ∃ y, f x = Ok y ∧ ys !! i = Some y.
Proof.
  intros Hf. induction xs as [| x xs (ys & Hys & Hlen & Hix)].
  - exists []. split_and!; [done | done |]. intros i x Hx. by rewrite lookup_nil in Hx.
  - destruct (Hf x) as [y Hy]. exists (y :: ys). split_and!.
    + cbn. rewrite Hy. cbn. rewrite Hys. done.
    + simpl. by rewrite Hlen.
    + intros [| i] x'; simpl; [intros [= <-]; eauto | apply Hix].
Qed.

Lemma max_Qc_fold (xs : list Qc) (acc : Qc) :
  let m := foldl (λ m y, if bool_decide (m < y) then y else m) acc xs in
  (m = acc ∨ m ∈ xs) ∧ acc ≤ m ∧ ∀ x, x ∈ xs → x ≤ m.
Proof.
  revert acc. induction xs as [| x xs IH]; intros acc; simpl.
  - split_and!; [by left | apply Qcle_refl |]. by intros x ?%elem_of_nil.
  - destruct (IH (if bool_decide (acc < x) then x else acc)) as (Hin & Hle & Hmax).
    assert (acc ≤ (if bool_decide (acc < x) then x else acc) ∧
            x ≤ (if bool_decide (acc < x) then x else acc)) as [Ha Hx].
    { case_bool_decide as Hlt.
      - split; [by apply Qclt_le_weak | apply Qcle_refl].
      - split; [apply Qcle_refl | by apply Qcnot_lt_le]. }
    split_and!.
    + destruct Hin as [-> | Hin]; [| right; by right].
      case_bool_decide; [right; left | by left].
    + by eapply Qcle_trans.
    + intros z [-> | Hz]%elem_of_cons; [by eapply Qcle_trans | by apply Hmax].
Qed.

Lemma escolhe_pmt_spec (raizes : list Qc) :
  (raizes ≠ [] →
     ∃ p, escolhe_pmt raizes = Ok p ∧ p ∈ raizes ∧ ∀ r, r ∈ raizes → r ≤ p) ∧
  (escolhe_pmt raizes = Raise sem_solucao ↔ raizes = []).
Proof.
  destruct raizes as [| r rs]; [by split |]. split; [| by split].
  intros _. simpl. destruct (max_Qc_fold rs r) as (Hin & Hle & Hmax).
  eexists. split; [done |]. split.
  - destruct Hin as [-> | Hin]; [left | by right].
  - intros z [-> | Hz]%elem_of_cons; [done | by apply Hmax].
Qed.

Section goal_seek_provas.

Variable npf_irr : list Qc → option Qc.
Variable npf_pmt : Qc → nat → Qc → Qc.
Variable root_scalar : (Qc → result Qc) → Qc → Qc → option Qc.



Lemma funcao_goal_seek_impostos_Ok (a : args) (ei : nat) (x : Qc) :
  (num_parcelas a < ei)%nat → ∃ y, funcao_goal_seek_impostos npf_irr a ei x = Ok y.
Proof.
  intros Hei. unfold funcao_goal_seek_impostos.
  destruct (calcular_fluxos_spec a ei x Hei) as (bruta & liquida & c & -> & _).
  simpl. destruct (npf_irr liquida); eauto.
Qed.

End goal_seek_provas.

Section goal_seek_teorema.

Variable npf_irr : list Qc → option Qc.
Variable npf_pmt : Qc → nat → Qc → Qc.
Variable root_scalar : (Qc → result Qc) → Qc → Qc → option Qc.


End goal_seek_teorema.

Section goal_seek_confirmado.

Variable npf_irr : list Qc → option Qc.
Variable npf_pmt : Qc → nat → Qc → Qc.
Variable root_scalar : (Qc → result Qc) → Qc → Qc → option Qc.


End goal_seek_confirmado.


(** ** Report table against the builder *)

(** C1, on the code.  A purchase of 5 instalments has its extra flow at
    month 7 and one recognition month, 4, before the last instalment.  At
    every payment the builder applies 32% there, and the report applies 8%
    (IRPJ) and 12% (CSSL) because 4 is the largest recognition month: the
    two IRPJ bases differ as soon as the payment is not zero. *)
Theorem relatorio_diverge_do_construtor (pmt_otimizada : Qc) :
  let soma := 0 + pmt_otimizada + pmt_otimizada + pmt_otimizada in
  extra_index (tipo_operacao compra_5) (num_parcelas compra_5) = Ok 7%nat ∧
  impostos_meses (num_parcelas compra_5) = [4%nat] ∧
  ∃ bruta liquida c df,
    calcular_fluxos_com_impostos compra_5 7 pmt_otimizada = Ok (bruta, liquida, c) ∧
    montar_df compra_5 7 bruta liquida = Ok df ∧
    Base_IRPJ c !! 4%nat = Some (soma * f032) ∧
    df_Base_Tributavel_IRPJ df !! 4%nat = Some (soma * f008) ∧
    CSSL c !! 4%nat = Some (- (soma * f032 * aliquota_cssl compra_5)) ∧
    df_CSSL df !! 4%nat = Some (- (soma * f012 * aliquota_cssl compra_5)) ∧
    (pmt_otimizada ≠ 0 →
     Base_IRPJ c !! 4%nat ≠ df_Base_Tributavel_IRPJ df !! 4%nat).
Proof.
  intros soma. split; [done |]. split; [done |].
  do 4 eexists. split; [cbn; reflexivity |]. split; [cbn; reflexivity |].
  split; [cbn; reflexivity |]. split; [cbn; reflexivity |].
  split; [cbn; reflexivity |]. split; [cbn; reflexivity |].
  intros Hpmt Heq.
  assert (soma * f032 = soma * f008) as Heq' by (apply (inj Some); exact Heq).
  assert (soma * (f032 - f008) = 0) as Hz.
  { replace (soma * (f032 - f008)) with (soma * f032 - soma * f008) by ring.
    rewrite Heq'. ring. }
  assert (f032 - f008 ≠ 0) as Hf by compute_done.
  assert (1 + 1 + 1 ≠ 0) as H3 by compute_done.
  apply Qcmult_integral in Hz as [Hs | ?]; [| done].
  apply Hpmt. assert ((1 + 1 + 1) * pmt_otimizada = 0) as Hp.
  { rewrite <- Hs. unfold soma. ring. }
  by apply Qcmult_integral in Hp as [? | ?].
Qed.

Lemma relatorio_diverge_do_construtor_witness :
  ∃ bruta liquida c df,
    calcular_fluxos_com_impostos compra_5 7 (Q2Qc 100) = Ok (bruta, liquida, c) ∧
    montar_df compra_5 7 bruta liquida = Ok df ∧
    Base_IRPJ c !! 4%nat ≠ df_Base_Tributavel_IRPJ df !! 4%nat.
Proof.
  destruct (relatorio_diverge_do_construtor (Q2Qc 100))
    as (_ & _ & bruta & liquida & c & df & Hc & Hdf & _ & _ & _ & _ & Hne).
  exists bruta, liquida, c, df. split; [exact Hc |]. split; [exact Hdf |].
  apply Hne. compute_done.
Defined.

(** ** Income-tax recovery *)

(** C4, on the code.  The selection box stores "Compra", and lines 682 and 697
    compare it with "compra": for a purchase the recovery column is the
    instalment times the recovery rate at every row, the initial value
    discounts every instalment with the factor 1 - 0.34, and the last
    instalment of a purchase of 28 instalments of 100 recovers 34, where the
    lower-case spelling would give 0. *)
Theorem recuperacao_ir_compra_selecionada :
  (∀ linhas,
     recuperacao_ir (tipo_selecionado Compra) linhas
     = (λ l, - parcela l * recuperacao_irpj) <$> linhas ∧
     soma_ajustada (tipo_selecionado Compra) linhas
     = foldl (λ soma l,
                soma + (1 - recuperacao_irpj) * (- parcela l / (1 + cdi) ^ Mes l))
             0 (filter (λ l, Mes l ≠ 0%nat) linhas)) ∧
  recuperacao_ir (tipo_selecionado Compra) linhas_compra_28 !! 28%nat
  = Some (Q2Qc 34) ∧
  recuperacao_ir "compra" linhas_compra_28 !! 28%nat = Some 0.
Proof.
  split_and!.
  - intros linhas. split; [done |].
    unfold soma_ajustada. simpl. done.
  - apply option_Qc_eq. vm_compute. exact I.
  - apply option_Qc_eq. vm_compute. exact I.
Qed.

(** ** Cash-flow builder: the whole schedule *)

Lemma inv_reajuste_passo (a : args) (ei : nat) (pmt_bruta : Qc) (k : nat)
    (fs : Qc * Qc) (st : fluxos) :
  (1 ≤ k ≤ ei)%nat → length (fluxo_bruta st) = S ei →
  inv_reajuste a pmt_bruta k st →
  inv_reajuste a pmt_bruta (S k) (grava_parcela a k fs st).
Proof.
  intros Hk Hlen [Hat Hbr]. unfold inv_reajuste, grava_parcela.
  cbn [pmt_atual fluxo_bruta].
  assert ((if bool_decide (1 < k ∧ (k - 1) mod 12 = 0)%nat
           then pmt_atual st * (1 + inflacao_anual a) else pmt_atual st)
          = parcela_reajustada a pmt_bruta k) as Hnovo.
  { unfold parcela_reajustada. rewrite Hat.
    divmod (k - 1)%nat 12%nat. divmod (k - 2)%nat 12%nat.
    case_bool_decide as Hc.
    - replace ((k - 1) / 12)%nat with (S ((k - 2) / 12)) by lia.
      simpl. ring.
    - replace ((k - 1) / 12)%nat with ((k - 2) / 12)%nat by lia. done. }
  rewrite Hnovo. split.
  - unfold parcela_reajustada. by replace (S k - 2)%nat with (k - 1)%nat by lia.
  - intros p Hp. destruct (decide (p = k)) as [-> | Hne].
    + by rewrite list_lookup_insert_eq by lia.
    + rewrite list_lookup_insert_ne by lia. apply Hbr. lia.
Qed.

Lemma passo_parcela_grava (a : args) (k : nat) (st : fluxos) :
  ∃ fs, passo_parcela a k st = Ok (grava_parcela a k fs st).
Proof. unfold passo_parcela. rewrite fatores_Ok. eauto. Qed.

Lemma calcular_fluxos_estado (a : args) (ei : nat) (pmt_bruta : Qc) :
  (num_parcelas a < ei)%nat →
  ∃ st, inv_parcelas a ei pmt_bruta (S (num_parcelas a)) st ∧
        inv_reajuste a pmt_bruta (S (num_parcelas a)) st ∧
        calcular_fluxos_com_impostos a ei pmt_bruta = Ok (retorno_de a ei st).
Proof.
  intros Hei. unfold calcular_fluxos_com_impostos.
  destruct (for_each_seq_inv
              (λ k st, inv_parcelas a ei pmt_bruta k st ∧ inv_reajuste a pmt_bruta k st)
              (passo_parcela a) (num_parcelas a) 1 (fluxos_iniciais a ei pmt_bruta))
    as (st & -> & Hinv & Hre).
  { split; [apply inv_parcelas_inicio |]. split; [simpl; ring |]. intros p Hp. lia. }
  { intros m st Hm [Hinv Hre].
    destruct (inv_parcelas_passo a ei pmt_bruta m st) as (st' & Hst' & Hinv');
      [lia | done |].
    destruct (passo_parcela_grava a m st) as [fs Hfs].
    exists st'. split; [done |]. split; [done |].
    assert (st' = grava_parcela a m fs st) as -> by congruence.
    apply (inv_reajuste_passo a ei); [lia | | done].
    by destruct Hinv as ((? & _) & _). }
  exists st. split; [done |]. split; [done |].
  destruct Hinv as (Hlen & H0 & Hdone & Hzero & Hsign).
  simpl. rewrite for_each_passo_zero by (intros m Hm; apply Hzero; lia).
  simpl.
  destruct (Hzero ei ltac:(lia)) as (Z1 & Z2 & Z3 & Z4 & Z5 & Z6 & Z7 & Z8).
  rewrite (list_insert_id (fluxo_bruta st)), (list_insert_id (custos_pis st)),
    (list_insert_id (custos_cofins st)) by done.
  done.
Qed.

Lemma slice_3 {A} (xs : list A) (hi : nat) (x1 x2 x3 : A) :
  (3 ≤ hi)%nat →
  xs !! (hi - 3)%nat = Some x1 → xs !! (hi - 2)%nat = Some x2 →
  xs !! (hi - 1)%nat = Some x3 →
  slice xs (hi - 3) hi = [x1; x2; x3].
Proof.
  intros Hhi H1 H2 H3. unfold slice.
  replace (hi - (hi - 3))%nat with 3%nat by lia.
  apply list_eq. intros [| [| [| i]]].
  - rewrite lookup_take_lt, lookup_drop by lia.
    by replace (hi - 3 + 0)%nat with (hi - 3)%nat by lia.
  - rewrite lookup_take_lt, lookup_drop by lia.
    by replace (hi - 3 + 1)%nat with (hi - 2)%nat by lia.
  - rewrite lookup_take_lt, lookup_drop by lia.
    by replace (hi - 3 + 2)%nat with (hi - 1)%nat by lia.
  - by rewrite lookup_take_ge by lia.
Qed.

Lemma Qcplus_nonpos_le (x y : Qc) : y ≤ 0 → x + y ≤ x.
Proof.
  intros Hy. rewrite <- (Qcplus_0_r x) at 2. by apply Qcplus_le_mono_l.
Qed.

(** The rows of the returned schedule, by kind of month. *)
Lemma retorno_casos (a : args) (ei : nat) (pmt_bruta : Qc) (st : fluxos) :
  (num_parcelas a < ei)%nat →
  inv_parcelas a ei pmt_bruta (S (num_parcelas a)) st →
  ∃ bruta liquida c,
    retorno_de a ei st = (bruta, liquida, c) ∧ bruta = fluxo_bruta st ∧
    (∀ p, (1 ≤ p ≤ num_parcelas a)%nat →
       ∃ x, let t := impostos_do_mes a p (fator_de a p) bruta in
            linha_fluxo bruta liquida c p x
              (x + - (x * aliquota_pis a) + - (x * aliquota_cofins a)
               + t.1.1.1 + t.1.1.2)
              (- (x * aliquota_pis a)) (- (x * aliquota_cofins a))
              t.1.1.1 t.1.1.2) ∧
    linha_fluxo bruta liquida c 0 (- valor_emprestado a) (- valor_emprestado a)
      0 0 0 0 ∧
    (∀ p, (num_parcelas a < p < ei)%nat → linha_fluxo bruta liquida c p 0 0 0 0 0 0) ∧
    (let t := fluxo_extra a ei bruta in
     linha_fluxo bruta liquida c ei 0 (t.1.1.1 + t.1.1.2) 0 0 t.1.1.1 t.1.1.2) ∧
    quatro c ei (fluxo_extra a ei bruta).
Proof.
  intros Hei (Hlen & H0 & Hdone & Hzero & _).
  destruct Hlen as (L1 & L2 & L3 & L4 & L5 & L6 & L7 & L8).
  do 3 eexists. split; [reflexivity |]. split; [reflexivity |].
  unfold linha_fluxo, quatro. simpl. split_and!.
  - intros p Hp. destruct (Hdone p ltac:(lia)) as (x & Hx & Hpis & Hcof & Ht).
    simpl in Ht. destruct Ht as (T1 & T2 & _ & _ & Hl).
    exists x. busca. done.
  - by destruct H0 as (? & _).
  - busca. by destruct H0 as (_ & ? & _).
  - by destruct H0 as (_ & _ & ? & _).
  - by destruct H0 as (_ & _ & _ & ? & _).
  - busca. by destruct H0 as (_ & _ & _ & _ & ? & _).
  - busca. by destruct H0 as (_ & _ & _ & _ & _ & ? & _).
  - intros p Hp. busca.
    destruct (Hzero p ltac:(lia)) as (? & ? & ? & ? & ? & ? & _). done.
  - by destruct (Hzero ei ltac:(lia)) as (? & _).
  - by busca.
  - by destruct (Hzero ei ltac:(lia)) as (_ & _ & ? & _).
  - by destruct (Hzero ei ltac:(lia)) as (_ & _ & _ & ? & _).
  - by busca.
  - by busca.
  - by busca.
  - by busca.
  - by busca.
  - by busca.
Qed.

Lemma calcular_fluxos_identidade (a : args) (ei : nat) (pmt_bruta : Qc)
    (bruta liquida : list Qc) (c : custos) :
  (num_parcelas a < ei)%nat →
  calcular_fluxos_com_impostos a ei pmt_bruta = Ok (bruta, liquida, c) →
  ∀ p, (p ≤ ei)%nat →
    ∃ b l pis cofins cssl irpj,
      linha_fluxo bruta liquida c p b l pis cofins cssl irpj ∧
      l = b + pis + cofins + cssl + irpj.
Proof.
  intros Hei Hcalc.
  destruct (calcular_fluxos_estado a ei pmt_bruta Hei) as (st & Hinv & _ & Hc).
  destruct (retorno_casos a ei pmt_bruta st Hei Hinv)
    as (bruta' & liquida' & c' & Hr & _ & Hparc & H0 & Hgap & Hextra & _).
  rewrite Hcalc, Hr in Hc. injection Hc as <- <- <-. intros p Hp.
  destruct (decide (1 ≤ p ≤ num_parcelas a)%nat) as [Hm | Hm];
    [| destruct (decide (p = 0%nat)) as [-> | Hp0];
       [| destruct (decide (p = ei)) as [-> | Hpe]]].
  - destruct (Hparc p Hm) as (x & Hx). do 6 eexists. split; [exact Hx | done].
  - do 6 eexists. split; [exact H0 | ring].
  - do 6 eexists. split; [exact Hextra | ring].
  - do 6 eexists. split; [apply Hgap; lia | ring].
Qed.

(** X1.  In the schedule the builder returns, the net flow of every month
    0..extra_index is the gross flow plus the PIS, COFINS, CSSL and IRPJ
    costs of that month. *)
Theorem liquida_e_bruta_mais_custos (a : args) (ei : nat) (pmt_bruta : Qc) :
  extra_index (tipo_operacao a) (num_parcelas a) = Ok ei →
  ∃ bruta liquida c,
    calcular_fluxos_com_impostos a ei pmt_bruta = Ok (bruta, liquida, c) ∧
    ∀ p, (p ≤ ei)%nat →
      ∃ b l pis cofins cssl irpj,
        linha_fluxo bruta liquida c p b l pis cofins cssl irpj ∧
        l = b + pis + cofins + cssl + irpj.
Proof.
  intros [Hei _]%extra_index_Ok.
  destruct (calcular_fluxos_spec a ei pmt_bruta Hei) as (bruta & liquida & c & Hc & _).
  exists bruta, liquida, c. split; [done |].
  by apply (calcular_fluxos_identidade a ei pmt_bruta).
Qed.

Lemma liquida_e_bruta_mais_custos_witness :
  ∃ bruta liquida c b l pis cofins cssl irpj,
    calcular_fluxos_com_impostos compra_5 7 (Q2Qc 100) = Ok (bruta, liquida, c) ∧
    linha_fluxo bruta liquida c 4 b l pis cofins cssl irpj ∧
    l = b + pis + cofins + cssl + irpj.
Proof.
  destruct (liquida_e_bruta_mais_custos compra_5 7 (Q2Qc 100) eq_refl)
    as (bruta & liquida & c & Hc & Hp).
  destruct (Hp 4%nat) as (b & l & pis & cofins & cssl & irpj & Hl & Heq); [lia |].
  exists bruta, liquida, c, b, l, pis, cofins, cssl, irpj. auto.
Defined.

(** X2.  The schedule has one position per month 0..extra_index in each of
    its eight lists; month 0 holds the disbursement, with its sign changed,
    as gross and as net flow; after the last instalment the gross flow is
    zero, and so is the net flow of the months before the extra one. *)
Theorem forma_do_fluxo (a : args) (ei : nat) (pmt_bruta : Qc) :
  extra_index (tipo_operacao a) (num_parcelas a) = Ok ei →
  ∃ bruta liquida c,
    calcular_fluxos_com_impostos a ei pmt_bruta = Ok (bruta, liquida, c) ∧
    length bruta = S ei ∧ length liquida = S ei ∧
    length (PIS c) = S ei ∧ length (COFINS c) = S ei ∧
    length (CSSL c) = S ei ∧ length (IRPJ c) = S ei ∧
    length (Base_IRPJ c) = S ei ∧ length (Base_Adicional_IRPJ c) = S ei ∧
    bruta !! 0%nat = Some (- valor_emprestado a) ∧
    liquida !! 0%nat = Some (- valor_emprestado a) ∧
    (∀ p, (num_parcelas a < p ≤ ei)%nat → bruta !! p = Some 0) ∧
    (∀ p, (num_parcelas a < p < ei)%nat → liquida !! p = Some 0).
Proof.
  intros [Hei _]%extra_index_Ok.
  destruct (calcular_fluxos_estado a ei pmt_bruta Hei) as (st & Hinv & _ & Hc).
  destruct (retorno_casos a ei pmt_bruta st Hei Hinv)
    as (bruta & liquida & c & Hr & _ & _ & H0 & Hgap & Hextra & _).
  exists bruta, liquida, c. rewrite Hc, Hr. split; [done |].
  destruct Hinv as ((L1 & L2 & L3 & L4 & L5 & L6 & L7 & L8) & _).
  injection Hr as <- <- <-. simpl. rewrite !length_insert.
  split_and!; try done.
  - by destruct H0 as (? & _).
  - by destruct H0 as (_ & ? & _).
  - intros p Hp. destruct (decide (p = ei)) as [-> | Hne].
    + by destruct Hextra as (? & _).
    + by destruct (Hgap p ltac:(lia)) as (? & _).
  - intros p Hp. by destruct (Hgap p Hp) as (_ & ? & _).
Qed.

Lemma forma_do_fluxo_witness :
  ∃ bruta liquida c,
    calcular_fluxos_com_impostos compra_5 7 (Q2Qc 100) = Ok (bruta, liquida, c) ∧
    length bruta = 8%nat ∧ bruta !! 6%nat = Some 0.
Proof.
  destruct (forma_do_fluxo compra_5 7 (Q2Qc 100) eq_refl)
    as (bruta & liquida & c & Hc & Hl & _ & _ & _ & _ & _ & _ & _ & _ & _ & Hz & _).
  exists bruta, liquida, c. split; [exact Hc |]. split; [exact Hl |].
  apply Hz. simpl. lia.
Defined.

(** X3.  The gross flow of instalment p is the first payment times
    (1 + inflation) to the power (p - 1) / 12: the payment is constant within
    each block of twelve months, the first twelve at the payment given, and
    PIS and COFINS are charged on it at every instalment, recognition month
    or not. *)
Theorem parcelas_reajustadas (a : args) (ei : nat) (pmt_bruta : Qc) :
  extra_index (tipo_operacao a) (num_parcelas a) = Ok ei →
  ∃ bruta liquida c,
    calcular_fluxos_com_impostos a ei pmt_bruta = Ok (bruta, liquida, c) ∧
    ∀ p, (1 ≤ p ≤ num_parcelas a)%nat →
      bruta !! p = Some (parcela_reajustada a pmt_bruta p) ∧
      PIS c !! p = Some (- (parcela_reajustada a pmt_bruta p * aliquota_pis a)) ∧
      COFINS c !! p = Some (- (parcela_reajustada a pmt_bruta p * aliquota_cofins a)) ∧
      ((p ≤ 12)%nat → bruta !! p = Some pmt_bruta).
Proof.
  intros [Hei _]%extra_index_Ok.
  destruct (calcular_fluxos_estado a ei pmt_bruta Hei) as (st & Hinv & Hre & Hc).
  destruct (retorno_casos a ei pmt_bruta st Hei Hinv)
    as (bruta & liquida & c & Hr & -> & Hparc & _).
  exists (fluxo_bruta st), liquida, c. rewrite Hc, Hr. split; [done |]. intros p Hp.
  destruct (Hparc p Hp) as (x & Hx & _ & Hpis & Hcof & _).
  destruct Hre as [_ Hbr]. rewrite (Hbr p) in Hx by lia. injection Hx as <-.
  rewrite (Hbr p) by lia. split_and!; try done.
  intros H12. f_equal. unfold parcela_reajustada.
  replace ((p - 1) / 12)%nat with 0%nat.
  - simpl. ring.
  - symmetry. apply Nat.div_small. lia.
Qed.

Lemma parcelas_reajustadas_witness :
  ∃ bruta liquida c,
    calcular_fluxos_com_impostos compra_5 7 (Q2Qc 100) = Ok (bruta, liquida, c) ∧
    bruta !! 5%nat = Some (Q2Qc 100).
Proof.
  destruct (parcelas_reajustadas compra_5 7 (Q2Qc 100) eq_refl)
    as (bruta & liquida & c & Hc & Hp).
  exists bruta, liquida, c. split; [exact Hc |].
  apply (Hp 5%nat); simpl; lia.
Defined.

Lemma proximo_tributavel_alinhado (n : nat) :
  (1 ≤ n)%nat → ((n - 1) mod 3 = 0)%nat → proximo_tributavel (n + 1) = (n + 3)%nat.
Proof.
  intros Hn Hmod.
  destruct (proximo_tributavel_spec (n + 1)) as (Hle & Ht & Hmin).
  divmod (n - 1)%nat 3%nat.
  assert (tributavel (n + 3)) as Ht3.
  { unfold tributavel. divmod (n + 3 - 1)%nat 3%nat. lia. }
  specialize (Hmin (n + 3)%nat ltac:(lia) Ht3).
  unfold tributavel in Ht.
  divmod (proximo_tributavel (n + 1) - 1)%nat 3%nat. lia.
Qed.

Lemma fluxo_extra_janela (a : args) (ei : nat) (bruta : list Qc) (x1 x2 x3 : Qc) :
  (3 ≤ num_parcelas a)%nat → (3 ≤ ei)%nat →
  bruta !! (ei - 3)%nat = Some x1 → bruta !! (ei - 2)%nat = Some x2 →
  bruta !! (ei - 1)%nat = Some x3 →
  (lower (tipo_operacao a) = "aluguel" →
     fluxo_extra a ei bruta = impostos_com_fatores a (0 + x1 + x2 + x3) f032 f032) ∧
  (lower (tipo_operacao a) = "compra" →
     fluxo_extra a ei bruta = impostos_com_fatores a (0 + x1 + x2 + x3) f008 f012).
Proof.
  intros Hn Hei H1 H2 H3. rewrite fluxo_extra_casos.
  rewrite (slice_3 bruta ei x1 x2 x3) by done.
  rewrite bool_decide_eq_true_2 by done. split.
  - intros Hal. by rewrite bool_decide_eq_true_2.
  - intros Hco. by rewrite Hco.
Qed.

(** X4.  With at least three instalments, the extra month has no gross flow
    and no PIS or COFINS; its CSSL and IRPJ come from the sum of the gross
    flows of the three months before it, with the factors 32% and 32% for a
    rental and 8% (IRPJ) and 12% (CSSL) for a purchase; its net flow is the
    sum of these two costs. *)
Theorem fluxo_extra_do_construtor (a : args) (ei : nat) (pmt_bruta : Qc) :
  extra_index (tipo_operacao a) (num_parcelas a) = Ok ei →
  (3 ≤ num_parcelas a)%nat →
  ∃ bruta liquida c x1 x2 x3 t,
    calcular_fluxos_com_impostos a ei pmt_bruta = Ok (bruta, liquida, c) ∧
    bruta !! (ei - 3)%nat = Some x1 ∧ bruta !! (ei - 2)%nat = Some x2 ∧
    bruta !! (ei - 1)%nat = Some x3 ∧
    bruta !! ei = Some 0 ∧ PIS c !! ei = Some 0 ∧ COFINS c !! ei = Some 0 ∧
    quatro c ei t ∧ liquida !! ei = Some (t.1.1.1 + t.1.1.2) ∧
    (lower (tipo_operacao a) = "aluguel" →
       t = impostos_com_fatores a (0 + x1 + x2 + x3) f032 f032) ∧
    (lower (tipo_operacao a) = "compra" →
       t = impostos_com_fatores a (0 + x1 + x2 + x3) f008 f012).
Proof.
  intros [Hei _]%extra_index_Ok Hn.
  destruct (calcular_fluxos_estado a ei pmt_bruta Hei) as (st & Hinv & _ & Hc).
  destruct (retorno_casos a ei pmt_bruta st Hei Hinv)
    as (bruta & liquida & c & Hr & Hb & _ & _ & _ & Hextra & Hq).
  destruct Hinv as ((L1 & _) & _). rewrite <- Hb in L1.
  destruct (lookup_lt_is_Some_2 bruta (ei - 3)%nat) as [x1 H1]; [lia |].
  destruct (lookup_lt_is_Some_2 bruta (ei - 2)%nat) as [x2 H2]; [lia |].
  destruct (lookup_lt_is_Some_2 bruta (ei - 1)%nat) as [x3 H3]; [lia |].
  exists bruta, liquida, c, x1, x2, x3, (fluxo_extra a ei bruta).
  rewrite Hc, Hr. simpl in Hextra.
  destruct Hextra as (E1 & E2 & E3 & E4 & E5 & E6).
  pose proof (fluxo_extra_janela a ei bruta x1 x2 x3 Hn ltac:(lia) H1 H2 H3)
    as [Hal Hco].
  split_and!; done.
Qed.

Lemma fluxo_extra_do_construtor_witness :
  ∃ bruta liquida c t,
    calcular_fluxos_com_impostos compra_5 7 (Q2Qc 100) = Ok (bruta, liquida, c) ∧
    quatro c 7 t ∧ liquida !! 7%nat = Some (t.1.1.1 + t.1.1.2).
Proof.
  destruct (fluxo_extra_do_construtor compra_5 7 (Q2Qc 100) eq_refl)
    as (bruta & liquida & c & x1 & x2 & x3 & t & Hc & _ & _ & _ & _ & _ & _ & Hq & Hl & _).
  { simpl. lia. }
  exists bruta, liquida, c, t. auto.
Defined.

(** X5.  For a purchase whose last instalment n is itself a recognition month
    (as 28, 40, 52 and 64 are), the extra flow is at month n + 3, and the
    three months before it hold the last instalment and two empty months: the
    base of the extra flow counts the last instalment alone. *)
Theorem fluxo_extra_compra_alinhada (a : args) (pmt_bruta : Qc) :
  lower (tipo_operacao a) = "compra" →
  (4 ≤ num_parcelas a)%nat → ((num_parcelas a - 1) mod 3 = 0)%nat →
  extra_index (tipo_operacao a) (num_parcelas a) = Ok (num_parcelas a + 3)%nat ∧
  ∃ bruta liquida c,
    calcular_fluxos_com_impostos a (num_parcelas a + 3) pmt_bruta
    = Ok (bruta, liquida, c) ∧
    quatro c (num_parcelas a + 3)
      (impostos_com_fatores a
         (0 + parcela_reajustada a pmt_bruta (num_parcelas a) + 0 + 0) f008 f012).
Proof.
  intros Hco Hn Hmod.
  assert (extra_index (tipo_operacao a) (num_parcelas a)
          = Ok (num_parcelas a + 3)%nat) as He.
  { unfold extra_index. rewrite Hco. simpl.
    by rewrite proximo_tributavel_alinhado by (done || lia). }
  split; [done |]. set (ei := (num_parcelas a + 3)%nat) in *.
  assert (num_parcelas a < ei)%nat as Hei by (unfold ei; lia).
  destruct (calcular_fluxos_estado a ei pmt_bruta Hei) as (st & Hinv & Hre & Hc).
  destruct (retorno_casos a ei pmt_bruta st Hei Hinv)
    as (bruta & liquida & c & Hr & -> & _ & _ & Hgap & _ & Hq).
  exists (fluxo_bruta st), liquida, c. rewrite Hc, Hr. split; [done |].
  destruct Hre as [_ Hbr].
  destruct (fluxo_extra_janela a ei (fluxo_bruta st)
              (parcela_reajustada a pmt_bruta (num_parcelas a)) 0 0)
    as [_ Hj]; try lia.
  - replace (ei - 3)%nat with (num_parcelas a) by (unfold ei; lia).
    apply Hbr. lia.
  - by destruct (Hgap (ei - 2)%nat ltac:(unfold ei; lia)) as (? & _).
  - by destruct (Hgap (ei - 1)%nat ltac:(unfold ei; lia)) as (? & _).
  - by rewrite <- Hj.
Qed.

Lemma fluxo_extra_compra_alinhada_witness :
  extra_index "Compra" 28 = Ok 31%nat.
Proof.
  apply (fluxo_extra_compra_alinhada
           (Args 1 28 0 0 0 0 "Compra" None None 101 0 0 0 0) 1);
    [reflexivity | simpl; lia | reflexivity].
Defined.

Lemma Qcsoma_custos_le (x a1 a2 a3 a4 : Qc) :
  a1 ≤ 0 → a2 ≤ 0 → a3 ≤ 0 → a4 ≤ 0 → x + a1 + a2 + a3 + a4 ≤ x.
Proof.
  intros H1 H2 H3 H4.
  eapply Qcle_trans; [by apply Qcplus_nonpos_le |].
  eapply Qcle_trans; [by apply Qcplus_nonpos_le |].
  eapply Qcle_trans; [by apply Qcplus_nonpos_le |].
  by apply Qcplus_nonpos_le.
Qed.

Lemma impostos_do_mes_sinais (a : args) (p : nat) (bruta : list Qc) :
  0 ≤ aliquota_irpj a → 0 ≤ aliquota_cssl a → 0 ≤ aliquota_adicional_irpj a →
  (∀ q x, (1 ≤ q)%nat → bruta !! q = Some x → 0 ≤ x) →
  let t := impostos_do_mes a p (fator_de a p) bruta in
  t.1.1.1 ≤ 0 ∧ t.1.1.2 ≤ 0 ∧ 0 ≤ t.1.2 ∧ 0 ≤ t.2.
Proof.
  intros Hirpj Hcssl Had Hbr.
  destruct (decide (p ∈ impostos_meses (num_parcelas a))) as [Hin | Hout].
  - rewrite impostos_do_mes_dentro by done.
    pose proof Hin as Hp%impostos_meses_elem.
    apply impostos_com_fatores_sinais; try done; try apply fator_de_nonneg.
    apply soma_slice_nonneg; [lia | done].
  - rewrite impostos_do_mes_fora by done. simpl.
    split_and!; apply Qcle_refl.
Qed.

Lemma fluxo_extra_sinais (a : args) (ei : nat) (bruta : list Qc) :
  (num_parcelas a < ei)%nat →
  0 ≤ aliquota_irpj a → 0 ≤ aliquota_cssl a → 0 ≤ aliquota_adicional_irpj a →
  (∀ q x, (1 ≤ q)%nat → bruta !! q = Some x → 0 ≤ x) →
  let t := fluxo_extra a ei bruta in
  t.1.1.1 ≤ 0 ∧ t.1.1.2 ≤ 0 ∧ 0 ≤ t.1.2 ∧ 0 ≤ t.2.
Proof.
  intros Hei Hirpj Hcssl Had Hbr. rewrite fluxo_extra_casos.
  repeat case_bool_decide.
  - apply impostos_com_fatores_sinais; auto using f032_nonneg.
    apply soma_slice_nonneg; [lia | done].
  - apply impostos_com_fatores_sinais; auto using f012_nonneg, f008_nonneg.
    apply soma_slice_nonneg; [lia | done].
  - simpl. split_and!; apply Qcle_refl.
Qed.

(** X6.  With a payment, an inflation and tax rates that are not negative,
    the net flow of a month never exceeds its gross flow. *)
Theorem liquida_nao_excede_bruta (a : args) (ei : nat) (pmt_bruta : Qc) :
  extra_index (tipo_operacao a) (num_parcelas a) = Ok ei →
  0 ≤ pmt_bruta → 0 ≤ inflacao_anual a →
  0 ≤ aliquota_pis a → 0 ≤ aliquota_cofins a →
  0 ≤ aliquota_irpj a → 0 ≤ aliquota_cssl a → 0 ≤ aliquota_adicional_irpj a →
  ∃ bruta liquida c,
    calcular_fluxos_com_impostos a ei pmt_bruta = Ok (bruta, liquida, c) ∧
    ∀ p, (p ≤ ei)%nat →
      ∃ b l, bruta !! p = Some b ∧ liquida !! p = Some l ∧ l ≤ b.
Proof.
  intros [Hei _]%extra_index_Ok Hpmt Hinf Hpis Hcof Hirpj Hcssl Had.
  destruct (calcular_fluxos_estado a ei pmt_bruta Hei) as (st & Hinv & _ & Hc).
  destruct (retorno_casos a ei pmt_bruta st Hei Hinv)
    as (bruta & liquida & c & Hr & -> & Hparc & H0 & Hgap & Hextra & _).
  exists (fluxo_bruta st), liquida, c. rewrite Hc, Hr. split; [done |].
  destruct Hinv as (_ & _ & _ & _ & Hsign).
  destruct (Hsign Hpmt Hinf) as [_ Hbr]. intros p Hp.
  destruct (decide (1 ≤ p ≤ num_parcelas a)%nat) as [Hm | Hm];
    [| destruct (decide (p = 0%nat)) as [-> | Hp0];
       [| destruct (decide (p = ei)) as [-> | Hpe]]].
  - destruct (Hparc p Hm) as (x & Hx & Hl & _).
    do 2 eexists. split; [exact Hx |]. split; [exact Hl |].
    assert (0 ≤ x) as Hx0 by (apply (Hbr p); [lia | done]).
    destruct (impostos_do_mes_sinais a p (fluxo_bruta st)) as (? & ? & _); try done.
    apply Qcsoma_custos_le; try done; by apply Qcopp_nonpos, Qcmult_nonneg.
  - destruct H0 as (Hb & Hl & _). do 2 eexists. split; [exact Hb |].
    split; [exact Hl | apply Qcle_refl].
  - destruct Hextra as (Hb & Hl & _). do 2 eexists. split; [exact Hb |].
    split; [exact Hl |].
    destruct (fluxo_extra_sinais a ei (fluxo_bruta st)) as (? & ? & _); try done.
    eapply Qcle_trans; [by apply Qcplus_nonpos_le | done].
  - destruct (Hgap p ltac:(lia)) as (Hb & Hl & _). do 2 eexists.
    split; [exact Hb |]. split; [exact Hl | apply Qcle_refl].
Qed.

Lemma liquida_nao_excede_bruta_witness :
  ∃ bruta liquida c b l,
    calcular_fluxos_com_impostos compra_5 7 (Q2Qc 100) = Ok (bruta, liquida, c) ∧
    bruta !! 4%nat = Some b ∧ liquida !! 4%nat = Some l ∧ l ≤ b.
Proof.
  destruct (liquida_nao_excede_bruta compra_5 7 (Q2Qc 100) eq_refl)
    as (bruta & liquida & c & Hc & Hp); try compute_done.
  destruct (Hp 4%nat) as (b & l & Hb & Hl & Hle); [lia |].
  exists bruta, liquida, c, b, l. auto.
Defined.

(** ** Report table *)

Lemma for_each_inv {S : Type} (I : list nat → S → Prop) (body : nat → S → result S)
    (xs : list nat) (st0 : S) :
  I [] st0 →
  (∀ pre x st, x ∈ xs → I pre st → ∃ st', body x st = Ok st' ∧ I (pre ++ [x]) st') →
  ∃ st', for_each xs body st0 = Ok st' ∧ I xs st'.
Proof.
  intros H0 Hstep.
  assert (∀ ys pre st, (∀ y, y ∈ ys → y ∈ xs) → I pre st →
            ∃ st', for_each ys body st = Ok st' ∧ I (pre ++ ys) st') as Hgen.
  { induction ys as [| y ys IH]; intros pre st Hsub Hpre.
    - exists st. by rewrite app_nil_r.
    - destruct (Hstep pre y st) as (st1 & Hb & H1); [apply Hsub; left | done |].
      destruct (IH (pre ++ [y]) st1) as (st' & Hf & H'); [| done |].
      { intros z Hz. apply Hsub. by right. }
      exists st'. simpl. rewrite Hb. simpl. split; [done |].
      by rewrite <- app_assoc in H'. }
  by apply (Hgen xs [] st0).
Qed.

Lemma max_nat_fold (xs : list nat) (acc : nat) :
  let m := foldl (λ m y, if bool_decide (m < y)%nat then y else m) acc xs in
  (m = acc ∨ m ∈ xs) ∧ (acc ≤ m)%nat ∧ ∀ x, x ∈ xs → (x ≤ m)%nat.
Proof.
  revert acc. induction xs as [| x xs IH]; intros acc; simpl.
  - split_and!; [by left | lia |]. by intros x ?%elem_of_nil.
  - destruct (IH (if bool_decide (acc < x)%nat then x else acc)) as (Hin & Hle & Hmax).
    split_and!.
    + destruct Hin as [-> | Hin]; [| right; by right].
      case_bool_decide; [right; left | by left].
    + case_bool_decide; lia.
    + intros z [-> | Hz]%elem_of_cons; [case_bool_decide; lia | by apply Hmax].
Qed.

Lemma max_nat_spec (xs : list nat) :
  xs ≠ [] → ∃ mx, max_nat xs = Ok mx ∧ mx ∈ xs ∧ ∀ x, x ∈ xs → (x ≤ mx)%nat.
Proof.
  destruct xs as [| x xs]; [done |]. intros _. simpl.
  destruct (max_nat_fold xs x) as (Hin & Hle & Hmax).
  eexists. split; [done |]. split.
  - destruct Hin as [-> | Hin]; [left | by right].
  - intros z [-> | Hz]%elem_of_cons; [done | by apply Hmax].
Qed.

Lemma impostos_meses_max (n : nat) :
  (4 ≤ n)%nat →
  ∃ mx, max_nat (impostos_meses n) = Ok mx ∧ mx ∈ impostos_meses n ∧
        (mx ≤ n)%nat ∧ ∀ p, p ∈ impostos_meses n → (p ≤ mx)%nat.
Proof.
  intros Hn. destruct (max_nat_spec (impostos_meses n)) as (mx & Hmx & Hin & Hmax).
  { intros Hnil. assert (4%nat ∈ impostos_meses n) as H4.
    { apply impostos_meses_elem. split; [lia | done]. }
    rewrite Hnil in H4. by apply elem_of_nil in H4. }
  exists mx. split_and!; try done.
  apply impostos_meses_elem in Hin. lia.
Qed.

Lemma fatores_relatorio_Ok (a : args) (mx mes : nat) :
  max_nat (impostos_meses (num_parcelas a)) = Ok mx →
  fatores_relatorio a mes = Ok (fator_relatorio_de a mx mes).
Proof.
  intros Hmx. unfold fatores_relatorio, fator_relatorio_de. rewrite Hmx. simpl.
  by repeat case_bool_decide.
Qed.

Ltac busca_df :=
  repeat first
    [ rewrite list_lookup_insert_eq by lia
    | rewrite list_lookup_insert_ne by lia ].

Lemma grava_linha_inv (a : args) (ei : nat) (bruta liquida : list Qc)
    (p : nat) (base_cssl base_irpj : Qc) (df : data_frame) :
  (p ≤ ei)%nat →
  colunas_fixas a ei bruta liquida df → comprimentos_df ei df →
  let df' := grava_linha a p base_cssl base_irpj df in
  colunas_fixas a ei bruta liquida df' ∧ comprimentos_df ei df' ∧
  celulas a df' p base_cssl base_irpj ∧
  (∀ q bc bi, q ≠ p → celulas a df q bc bi → celulas a df' q bc bi) ∧
  (∀ q, q ≠ p → celulas_zero df q → celulas_zero df' q).
Proof.
  intros Hp Hfix (L1 & L2 & L3 & L4 & L5 & L6).
  unfold colunas_fixas, comprimentos_df, celulas, celulas_zero, grava_linha in *.
  simpl. rewrite !length_insert. split_and!; try tauto.
  all: try by busca_df.
  - intros q bc bi Hq. by busca_df.
  - intros q Hq. by busca_df.
Qed.

Lemma inv_relatorio_inicio (a : args) (ei : nat) (bruta liquida : list Qc) (mx : nat) :
  inv_relatorio a ei bruta liquida mx [] (df_inicial a ei bruta liquida).
Proof.
  unfold inv_relatorio, colunas_fixas, comprimentos_df, celulas_zero, df_inicial.
  simpl. rewrite !length_replicate. split_and!; try done; try lia.
  - by intros p ?%elem_of_nil.
  - intros p _ Hp. split_and!; apply lookup_replicate_2; lia.
Qed.

Lemma inv_relatorio_passo (a : args) (ei : nat) (bruta liquida : list Qc) (mx : nat)
    (pre : list nat) (p : nat) (df : data_frame) :
  max_nat (impostos_meses (num_parcelas a)) = Ok mx →
  (p ≤ ei)%nat →
  inv_relatorio a ei bruta liquida mx pre df →
  ∃ df', passo_relatorio a p df = Ok df' ∧
         inv_relatorio a ei bruta liquida mx (pre ++ [p]) df'.
Proof.
  intros Hmx Hp (Hfix & Hlen & Hdone & Hzero).
  unfold passo_relatorio. rewrite (fatores_relatorio_Ok a mx p Hmx). simpl.
  eexists. split; [done |].
  assert (df_Fluxo_de_Caixa_Bruta df = bruta) as -> by apply Hfix.
  fold (soma_relatorio bruta p).
  destruct (grava_linha_inv a ei bruta liquida p
              (soma_relatorio bruta p * (fator_relatorio_de a mx p).2)
              (soma_relatorio bruta p * (fator_relatorio_de a mx p).1) df Hp Hfix Hlen)
    as (Hfix' & Hlen' & Hcel & Hkeep & Hkeep0).
  split_and!; try done.
  - intros q [Hq | ->%list_elem_of_singleton]%elem_of_app; [| done].
    destruct (decide (q = p)) as [-> | Hne]; [done |].
    apply Hkeep; [done |]. by apply Hdone.
  - intros q Hq Hqe. apply Hkeep0.
    + intros ->. apply Hq, elem_of_app. right. by apply list_elem_of_singleton.
    + apply Hzero; [| done]. intros Hin. apply Hq, elem_of_app. by left.
Qed.

(** What the report table holds, when there is a recognition month. *)
Lemma montar_df_spec (a : args) (ei : nat) (bruta liquida : list Qc) :
  (num_parcelas a < ei)%nat → (4 ≤ num_parcelas a)%nat →
  ∃ mx df,
    max_nat (impostos_meses (num_parcelas a)) = Ok mx ∧
    montar_df a ei bruta liquida = Ok df ∧
    colunas_fixas a ei bruta liquida df ∧ comprimentos_df ei df ∧
    (∀ p, p ∈ impostos_meses (num_parcelas a) →
       celulas a df p (soma_relatorio bruta p * (fator_relatorio_de a mx p).2)
                      (soma_relatorio bruta p * (fator_relatorio_de a mx p).1)) ∧
    celulas a df ei
      (sum (loc_slice bruta (ei - 3) ei) * (fator_extra_de a).2)
      (sum (loc_slice bruta (ei - 3) ei) * (fator_extra_de a).1) ∧
    (∀ p, p ∉ impostos_meses (num_parcelas a) → (p < ei)%nat → celulas_zero df p).
Proof.
  intros Hei Hn.
  destruct (impostos_meses_max (num_parcelas a) Hn) as (mx & Hmx & _ & Hle & _).
  unfold montar_df.
  destruct (for_each_inv (inv_relatorio a ei bruta liquida mx) (passo_relatorio a)
              (impostos_meses (num_parcelas a)) (df_inicial a ei bruta liquida))
    as (df & -> & Hfix & Hlen & Hdone & Hzero).
  { apply inv_relatorio_inicio. }
  { intros pre p df Hp%impostos_meses_elem. apply inv_relatorio_passo; [done | lia]. }
  simpl. unfold relatorio_extra. rewrite Hmx. simpl.
  rewrite bool_decide_eq_true_2 by lia.
  assert (df_Fluxo_de_Caixa_Bruta df = bruta) as -> by apply Hfix.
  assert (ei ∉ impostos_meses (num_parcelas a)) as Hout.
  { intros Hin%impostos_meses_elem. lia. }
  set (soma := sum (loc_slice bruta (ei - 3) ei)).
  destruct (grava_linha_inv a ei bruta liquida ei
              (soma * (fator_extra_de a).2) (soma * (fator_extra_de a).1) df
              ltac:(lia) Hfix Hlen)
    as (Hfix' & Hlen' & Hcel & Hkeep & Hkeep0).
  exists mx.
  assert ((if bool_decide (lower (tipo_operacao a) = "aluguel")
           then Ok (grava_linha a ei (soma * f032) (soma * f032) df)
           else Ok (grava_linha a ei (soma * f012) (soma * f008) df))
          = Ok (grava_linha a ei (soma * (fator_extra_de a).2)
                  (soma * (fator_extra_de a).1) df)) as ->.
  { unfold fator_extra_de. by case_bool_decide. }
  eexists. split; [done |]. split; [done |]. split_and!; try done.
  - intros p Hp. apply Hkeep; [| by apply Hdone].
    intros ->. done.
  - intros p Hp Hpe. apply Hkeep0; [lia |]. apply Hzero; [done | lia].
Qed.


Lemma sum_snoc (xs : list Qc) (x : Qc) : sum (xs ++ [x]) = sum xs + x.
Proof. unfold sum. by rewrite foldl_app. Qed.

Lemma loc_slice_slice {A} (xs : list A) (p : nat) :
  (3 ≤ p)%nat → loc_slice xs (p - 3) (p - 1) = slice xs (p - 3) p.
Proof.
  intros Hp. unfold loc_slice, slice. f_equal. lia.
Qed.

Lemma sum_loc_slice_extra (bruta : list Qc) (ei : nat) :
  (3 ≤ ei)%nat → bruta !! ei = Some 0 →
  sum (loc_slice bruta (ei - 3) ei) = sum (slice bruta (ei - 3) ei).
Proof.
  intros Hei Hz. unfold loc_slice, slice.
  replace (ei + 1 - (ei - 3))%nat with (S 3) by lia.
  replace (ei - (ei - 3))%nat with 3%nat by lia.
  rewrite (take_S_r _ _ 0).
  - rewrite sum_snoc. ring.
  - rewrite lookup_drop. by replace (ei - 3 + 3)%nat with ei by lia.
Qed.

(** The rows of the builder's dictionary, and the lengths of its lists. *)
Lemma calcular_fluxos_linhas (a : args) (ei : nat) (pmt_bruta : Qc)
    (bruta liquida : list Qc) (c : custos) :
  (num_parcelas a < ei)%nat →
  calcular_fluxos_com_impostos a ei pmt_bruta = Ok (bruta, liquida, c) →
  (length bruta = S ei ∧ length liquida = S ei ∧
   length (PIS c) = S ei ∧ length (COFINS c) = S ei ∧
   length (CSSL c) = S ei ∧ length (IRPJ c) = S ei ∧
   length (Base_IRPJ c) = S ei ∧ length (Base_Adicional_IRPJ c) = S ei) ∧
  (∀ p, p ∈ impostos_meses (num_parcelas a) →
     quatro c p (impostos_com_fatores a (sum (slice bruta (p - 3) p))
                   (fator_de a p).1 (fator_de a p).2)) ∧
  (∀ p, p ∉ impostos_meses (num_parcelas a) → (p < ei)%nat → quatro c p (0, 0, 0, 0)) ∧
  quatro c ei (fluxo_extra a ei bruta) ∧
  (∀ p, (num_parcelas a < p ≤ ei)%nat → bruta !! p = Some 0).
Proof.
  intros Hei Hcalc.
  destruct (calcular_fluxos_estado a ei pmt_bruta Hei) as (st & Hinv & _ & Hc).
  destruct (calcular_fluxos_spec a ei pmt_bruta Hei)
    as (bruta' & liquida' & c' & Hc' & Hparc & Hzero & (_ & _ & Hextra) & Hgap & _).
  rewrite Hcalc in Hc'. injection Hc' as <- <- <-.
  rewrite Hcalc in Hc. injection Hc as Hr.
  destruct Hinv as ((L1 & L2 & L3 & L4 & L5 & L6 & L7 & L8) & _).
  unfold retorno_de in Hr. simplify_eq.
  split_and!; simpl; rewrite ?length_insert; try done.
  - intros p Hin. pose proof Hin as Hp%impostos_meses_elem.
    destruct (Hparc p ltac:(lia)) as (x & _ & _ & _ & Hq).
    by rewrite impostos_do_mes_dentro in Hq.
  - intros p Hout Hp.
    destruct (decide (1 ≤ p ≤ num_parcelas a)%nat) as [Hm | Hm].
    + destruct (Hparc p Hm) as (x & _ & _ & _ & Hq).
      by rewrite impostos_do_mes_fora in Hq.
    + apply Hzero. lia.
Qed.

Lemma quatro_celulas (a : args) (c : custos) (df : data_frame) (p : nat)
    (soma fi fc : Qc) :
  quatro c p (impostos_com_fatores a soma fi fc) →
  celulas a df p (soma * fc) (soma * fi) →
  df_CSSL df !! p = CSSL c !! p ∧ df_IRPJ df !! p = IRPJ c !! p ∧
  df_Base_Tributavel_IRPJ df !! p = Base_IRPJ c !! p ∧
  df_Base_Adicional_IRPJ df !! p = Base_Adicional_IRPJ c !! p.
Proof.
  intros (Q1 & Q2 & Q3 & Q4) (_ & C2 & C3 & C4 & C5 & _). simpl in *.
  rewrite Q1, Q2, Q3, Q4, C2, C3, C4, C5. split_and!; try done.
  f_equal. ring.
Qed.

Lemma quatro_celulas_zero (c : custos) (df : data_frame) (p : nat) :
  quatro c p (0, 0, 0, 0) → celulas_zero df p →
  df_CSSL df !! p = CSSL c !! p ∧ df_IRPJ df !! p = IRPJ c !! p ∧
  df_Base_Tributavel_IRPJ df !! p = Base_IRPJ c !! p ∧
  df_Base_Adicional_IRPJ df !! p = Base_Adicional_IRPJ c !! p.
Proof.
  intros (Q1 & Q2 & Q3 & Q4) (_ & C2 & C3 & C4 & C5 & _). simpl in *.
  by rewrite Q1, Q2, Q3, Q4, C2, C3, C4, C5.
Qed.

Lemma fator_relatorio_concorda (a : args) (mx p : nat) :
  lower (tipo_operacao a) = "aluguel" ∨ mx = num_parcelas a →
  (p ≤ num_parcelas a)%nat →
  fator_relatorio_de a mx p = fator_de a p.
Proof.
  intros Hcaso Hp. unfold fator_relatorio_de, fator_de.
  case_bool_decide as Hal; [done |]. destruct Hcaso as [? | ->]; [done |].
  repeat case_bool_decide; try done; lia.
Qed.

(** The report table against the builder, row by row, when the report's
    factor test and the builder's coincide. *)
Lemma montar_df_concorda (a : args) (ei : nat) (pmt_bruta : Qc)
    (bruta liquida : list Qc) (c : custos) :
  (num_parcelas a < ei)%nat → (4 ≤ num_parcelas a)%nat →
  lower (tipo_operacao a) = "aluguel"
  ∨ num_parcelas a ∈ impostos_meses (num_parcelas a) →
  calcular_fluxos_com_impostos a ei pmt_bruta = Ok (bruta, liquida, c) →
  ∃ df, montar_df a ei bruta liquida = Ok df ∧
        colunas_fixas a ei bruta liquida df ∧
        df_CSSL df = CSSL c ∧ df_IRPJ df = IRPJ c ∧
        df_Base_Tributavel_IRPJ df = Base_IRPJ c ∧
        df_Base_Adicional_IRPJ df = Base_Adicional_IRPJ c.
Proof.
  intros Hei Hn Hcaso Hcalc.
  destruct (montar_df_spec a ei bruta liquida Hei Hn)
    as (mx & df & Hmx & Hdf & Hfix & Hlen & Hrows & Hextra & Hzero).
  destruct (calcular_fluxos_linhas a ei pmt_bruta bruta liquida c Hei Hcalc)
    as (Hlc & Bparc & Bzero & Bextra & Bgap).
  destruct (impostos_meses_max (num_parcelas a) Hn) as (mx' & Hmx' & _ & Hle & Hmax).
  assert (mx' = mx) as -> by congruence.
  assert (lower (tipo_operacao a) = "aluguel" ∨ mx = num_parcelas a) as Hcaso'.
  { destruct Hcaso as [? | Hin]; [by left | right].
    specialize (Hmax _ Hin). lia. }
  assert (∀ p, (p ≤ ei)%nat →
            df_CSSL df !! p = CSSL c !! p ∧ df_IRPJ df !! p = IRPJ c !! p ∧
            df_Base_Tributavel_IRPJ df !! p = Base_IRPJ c !! p ∧
            df_Base_Adicional_IRPJ df !! p = Base_Adicional_IRPJ c !! p) as Hrow.
  { intros p Hp. destruct (decide (p = ei)) as [-> | Hne].
    - rewrite fluxo_extra_casos in Bextra.
      rewrite bool_decide_eq_true_2 in Bextra by lia.
      rewrite sum_loc_slice_extra in Hextra by (lia || (apply Bgap; lia)).
      unfold fator_extra_de in Hextra.
      destruct (bool_decide (lower (tipo_operacao a) = "aluguel"));
        by eapply quatro_celulas.
    - destruct (decide (p ∈ impostos_meses (num_parcelas a))) as [Hin | Hout].
      + pose proof Hin as Hp'%impostos_meses_elem.
        specialize (Hrows p Hin). unfold soma_relatorio in Hrows.
        rewrite loc_slice_slice, fator_relatorio_concorda in Hrows by (done || lia).
        eapply quatro_celulas; [by apply Bparc | done].
      + apply quatro_celulas_zero; [apply Bzero | apply Hzero]; done || lia. }
  destruct Hlen as (_ & D2 & D3 & D4 & D5 & _).
  destruct Hlc as (_ & _ & _ & _ & C5 & C6 & C7 & C8).
  exists df. split; [done |]. split; [done |].
  split_and!; apply list_eq; intros i;
    (destruct (decide (i ≤ ei)%nat) as [Hi | Hi];
     [by destruct (Hrow i Hi) as (? & ? & ? & ?)
     | by rewrite !lookup_ge_None_2 by lia]).
Qed.

Lemma df_pis_cofins_concorda (a : args) (ei : nat) (pmt_bruta : Qc)
    (bruta liquida : list Qc) (c : custos) :
  (num_parcelas a < ei)%nat →
  0 ≤ valor_emprestado a → 0 ≤ pmt_bruta → 0 ≤ inflacao_anual a →
  calcular_fluxos_com_impostos a ei pmt_bruta = Ok (bruta, liquida, c) →
  df_PIS (df_inicial a ei bruta liquida) = PIS c ∧
  df_COFINS (df_inicial a ei bruta liquida) = COFINS c.
Proof.
  intros Hei Hval Hpmt Hinf Hcalc.
  destruct (calcular_fluxos_estado a ei pmt_bruta Hei) as (st & Hinv & _ & Hc).
  destruct (retorno_casos a ei pmt_bruta st Hei Hinv)
    as (bruta' & liquida' & c' & Hr & Hb & Hparc & H0 & Hgap & Hextra & _).
  rewrite Hcalc, Hr in Hc. injection Hc as <- <- <-.
  destruct Hinv as ((L1 & _ & L3 & L4 & _) & _ & _ & _ & Hsign).
  destruct (Hsign Hpmt Hinf) as [_ Hbr].
  assert (length (PIS c) = S ei ∧ length (COFINS c) = S ei) as [LP LC].
  { unfold retorno_de in Hr. by simplify_eq. }
  rewrite <- Hb in L1, Hbr.
  assert (∀ x r : Qc, (if bool_decide (0 < x) then - (x * r) else 0)
                      = (if bool_decide (x ≤ 0) then 0 else - (x * r))) as Hif.
  { intros x r. repeat case_bool_decide; try done.
    - by destruct (Qclt_not_le 0 x).
    - exfalso. by auto using Qcnot_lt_le. }
  assert (∀ p, (p ≤ ei)%nat →
            ∃ x, bruta !! p = Some x ∧
                 (x ≤ 0 → PIS c !! p = Some 0 ∧ COFINS c !! p = Some 0) ∧
                 (¬ x ≤ 0 → PIS c !! p = Some (- (x * aliquota_pis a)) ∧
                            COFINS c !! p = Some (- (x * aliquota_cofins a)))) as Hrow.
  { intros p Hp.
    destruct (decide (1 ≤ p ≤ num_parcelas a)%nat) as [Hm | Hm];
      [| destruct (decide (p = 0%nat)) as [-> | Hp0];
         [| destruct (decide (p = ei)) as [-> | Hpe]]].
    - destruct (Hparc p Hm) as (x & Hx & _ & Hpis & Hcof & _).
      exists x. split; [done |]. split; [| done].
      intros Hx0. assert (x = 0) as ->.
      { apply Qcle_antisym; [done |]. apply (Hbr p); [lia | done]. }
      rewrite Hpis, Hcof. split; f_equal; ring.
    - destruct H0 as (Hx & _ & Hpis & Hcof & _). eexists. split; [done |].
      split; [done |]. intros Hpos. exfalso. apply Hpos.
      by apply Qcopp_nonpos.
    - destruct Hextra as (Hx & _ & Hpis & Hcof & _). eexists. split; [done |].
      split; [done |]. intros Hpos. exfalso. apply Hpos, Qcle_refl.
    - destruct (Hgap p ltac:(lia)) as (Hx & _ & Hpis & Hcof & _).
      eexists. split; [done |].
      split; [done |]. intros Hpos. exfalso. apply Hpos, Qcle_refl. }
  unfold df_inicial. simpl.
  split; apply list_eq; intros i; rewrite list_lookup_fmap;
    (destruct (decide (i ≤ ei)%nat) as [Hi | Hi];
     [ destruct (Hrow i Hi) as (x & -> & Hz & Hnz); simpl; rewrite Hif;
       case_bool_decide as Hx0; [by destruct (Hz Hx0) | by destruct (Hnz Hx0)]
     | by rewrite !lookup_ge_None_2 by lia ]).
Qed.

(** X7.  The report table is built exactly when there are at least four
    instalments; it then has the months 0..extra_index, the gross and net
    flows it was given, one position per month in its tax columns, and zeros
    in the tax columns of every month before the extra one that is not a
    recognition month. *)
Theorem montar_df_forma (a : args) (ei : nat) (bruta liquida : list Qc) :
  (num_parcelas a < ei)%nat →
  ((∃ df, montar_df a ei bruta liquida = Ok df) ↔ (4 ≤ num_parcelas a)%nat) ∧
  ∀ df, montar_df a ei bruta liquida = Ok df →
    df_Mes df = seq 0 (ei + 1) ∧
    df_Fluxo_de_Caixa_Bruta df = bruta ∧ df_Fluxo_de_Caixa_Liquida df = liquida ∧
    length (df_PIS df) = length bruta ∧ length (df_COFINS df) = length bruta ∧
    comprimentos_df ei df ∧
    ∀ p, p ∉ impostos_meses (num_parcelas a) → (p < ei)%nat → celulas_zero df p.
Proof.
  intros Hei.
  destruct (decide (4 ≤ num_parcelas a)%nat) as [Hn | Hn].
  - destruct (montar_df_spec a ei bruta liquida Hei Hn)
      as (mx & df & _ & Hdf & (F1 & F2 & F3 & F4 & F5) & Hlen & _ & _ & Hzero).
    split; [split; eauto |]. intros df' Hdf'.
    assert (df' = df) as -> by congruence.
    rewrite F4, F5. unfold df_inicial. simpl. rewrite !length_fmap. done.
  - rewrite montar_df_sem_impostos by lia. split; [| done].
    split; [by intros [df ?] | lia].
Qed.

Lemma montar_df_forma_witness :
  ∃ df, montar_df compra_5 7 (replicate 8 1) (replicate 8 1) = Ok df.
Proof.
  apply (montar_df_forma compra_5 7 (replicate 8 1) (replicate 8 1)); simpl; lia.
Defined.

Lemma celulas_identidades (a : args) (df : data_frame) (p : nat) (bc bi : Qc) :
  celulas a df p bc bi →
  ∃ base_cssl cssl base_irpj adicional irpj irpj_adicional,
    df_Base_Tributavel_CSSL df !! p = Some base_cssl ∧
    df_CSSL df !! p = Some cssl ∧
    df_Base_Tributavel_IRPJ df !! p = Some base_irpj ∧
    df_Base_Adicional_IRPJ df !! p = Some adicional ∧
    df_IRPJ df !! p = Some irpj ∧
    df_IRPJ_Adicional df !! p = Some irpj_adicional ∧
    cssl = - (base_cssl * aliquota_cssl a) ∧
    irpj_adicional = - (adicional * aliquota_adicional_irpj a) ∧
    irpj = - (base_irpj * aliquota_irpj a) + irpj_adicional.
Proof.
  intros (C1 & C2 & C3 & C4 & C5 & C6). do 6 eexists. split_and!; done.
Qed.

(** X8.  In every row of the report table, the CSSL cell is minus the CSSL
    base times the CSSL rate, the IRPJ surtax cell is minus the surtax base
    times the surtax rate, and the IRPJ cell is minus the IRPJ base times the
    IRPJ rate plus the surtax cell. *)
Theorem relatorio_identidades (a : args) (ei : nat) (bruta liquida : list Qc)
    (df : data_frame) :
  (num_parcelas a < ei)%nat →
  montar_df a ei bruta liquida = Ok df →
  ∀ p, (p ≤ ei)%nat →
    ∃ base_cssl cssl base_irpj adicional irpj irpj_adicional,
      df_Base_Tributavel_CSSL df !! p = Some base_cssl ∧
      df_CSSL df !! p = Some cssl ∧
      df_Base_Tributavel_IRPJ df !! p = Some base_irpj ∧
      df_Base_Adicional_IRPJ df !! p = Some adicional ∧
      df_IRPJ df !! p = Some irpj ∧
      df_IRPJ_Adicional df !! p = Some irpj_adicional ∧
      cssl = - (base_cssl * aliquota_cssl a) ∧
      irpj_adicional = - (adicional * aliquota_adicional_irpj a) ∧
      irpj = - (base_irpj * aliquota_irpj a) + irpj_adicional.
Proof.
  intros Hei Hdf p Hp.
  destruct (decide (4 ≤ num_parcelas a)%nat) as [Hn | Hn];
    [| by rewrite montar_df_sem_impostos in Hdf by lia].
  destruct (montar_df_spec a ei bruta liquida Hei Hn)
    as (mx & df' & _ & Hdf' & _ & _ & Hrows & Hextra & Hzero).
  assert (df' = df) as -> by congruence.
  destruct (decide (p = ei)) as [-> | Hne]; [by eapply celulas_identidades |].
  destruct (decide (p ∈ impostos_meses (num_parcelas a))) as [Hin | Hout];
    [by eapply celulas_identidades, Hrows |].
  destruct (Hzero p Hout ltac:(lia)) as (Z1 & Z2 & Z3 & Z4 & Z5 & Z6).
  do 6 eexists. split_and!; try done; ring.
Qed.

Lemma relatorio_identidades_witness :
  ∃ df cssl base_cssl,
    montar_df compra_5 7 (replicate 8 1) (replicate 8 1) = Ok df ∧
    df_Base_Tributavel_CSSL df !! 4%nat = Some base_cssl ∧
    df_CSSL df !! 4%nat = Some cssl ∧
    cssl = - (base_cssl * aliquota_cssl compra_5).
Proof.
  assert (∃ df, montar_df compra_5 7 (replicate 8 1) (replicate 8 1) = Ok df)
    as [df Hdf] by (eexists; vm_compute; reflexivity).
  destruct (relatorio_identidades compra_5 7 (replicate 8 1) (replicate 8 1) df
              ltac:(simpl; lia) Hdf 4%nat ltac:(lia))
    as (bc & cs & bi & ad & ir & ia & H1 & H2 & _ & _ & _ & _ & H7 & _).
  exists df, cs, bc. auto.
Defined.

(** X9.  For a rental, and for a purchase whose last instalment is itself a
    recognition month, with at least four instalments, the report's CSSL,
    IRPJ, IRPJ base and IRPJ surtax base columns are the builder's lists,
    month by month, whatever the payment. *)
Theorem relatorio_igual_ao_construtor (a : args) (ei : nat) (pmt_bruta : Qc) :
  extra_index (tipo_operacao a) (num_parcelas a) = Ok ei →
  (4 ≤ num_parcelas a)%nat →
  lower (tipo_operacao a) = "aluguel"
  ∨ num_parcelas a ∈ impostos_meses (num_parcelas a) →
  ∃ bruta liquida c df,
    calcular_fluxos_com_impostos a ei pmt_bruta = Ok (bruta, liquida, c) ∧
    montar_df a ei bruta liquida = Ok df ∧
    df_CSSL df = CSSL c ∧ df_IRPJ df = IRPJ c ∧
    df_Base_Tributavel_IRPJ df = Base_IRPJ c ∧
    df_Base_Adicional_IRPJ df = Base_Adicional_IRPJ c.
Proof.
  intros [Hei _]%extra_index_Ok Hn Hcaso.
  destruct (calcular_fluxos_spec a ei pmt_bruta Hei) as (bruta & liquida & c & Hc & _).
  destruct (montar_df_concorda a ei pmt_bruta bruta liquida c Hei Hn Hcaso Hc)
    as (df & Hdf & _ & H1 & H2 & H3 & H4).
  exists bruta, liquida, c, df. done.
Qed.

Lemma relatorio_igual_ao_construtor_witness :
  ∃ bruta liquida c df,
    calcular_fluxos_com_impostos
      (Args (Q2Qc 1000) 4 0 0 0 0 "Compra" None None 101
            (Q2Qc 0.15) (Q2Qc 0.09) (Q2Qc 60000) (Q2Qc 0.10)) 7 (Q2Qc 100)
    = Ok (bruta, liquida, c) ∧
    montar_df
      (Args (Q2Qc 1000) 4 0 0 0 0 "Compra" None None 101
            (Q2Qc 0.15) (Q2Qc 0.09) (Q2Qc 60000) (Q2Qc 0.10)) 7 bruta liquida
    = Ok df ∧
    df_CSSL df = CSSL c ∧ df_IRPJ df = IRPJ c.
Proof.
  destruct (relatorio_igual_ao_construtor
              (Args (Q2Qc 1000) 4 0 0 0 0 "Compra" None None 101
                    (Q2Qc 0.15) (Q2Qc 0.09) (Q2Qc 60000) (Q2Qc 0.10)) 7 (Q2Qc 100))
    as (bruta & liquida & c & df & Hc & Hdf & H1 & H2 & _).
  - reflexivity.
  - simpl. lia.
  - right. compute_done.
  - exists bruta, liquida, c, df. auto.
Defined.

(** X10.  With a principal, a payment and an inflation that are not negative,
    the PIS and COFINS columns the report recomputes from the gross flows are
    the builder's lists. *)
Theorem relatorio_pis_cofins (a : args) (ei : nat) (pmt_bruta : Qc) :
  extra_index (tipo_operacao a) (num_parcelas a) = Ok ei →
  (4 ≤ num_parcelas a)%nat →
  0 ≤ valor_emprestado a → 0 ≤ pmt_bruta → 0 ≤ inflacao_anual a →
  ∃ bruta liquida c df,
    calcular_fluxos_com_impostos a ei pmt_bruta = Ok (bruta, liquida, c) ∧
    montar_df a ei bruta liquida = Ok df ∧
    df_PIS df = PIS c ∧ df_COFINS df = COFINS c.
Proof.
  intros [Hei _]%extra_index_Ok Hn Hval Hpmt Hinf.
  destruct (calcular_fluxos_spec a ei pmt_bruta Hei) as (bruta & liquida & c & Hc & _).
  destruct (montar_df_spec a ei bruta liquida Hei Hn)
    as (mx & df & _ & Hdf & (_ & _ & _ & F4 & F5) & _).
  destruct (df_pis_cofins_concorda a ei pmt_bruta bruta liquida c) as [H1 H2];
    try done.
  exists bruta, liquida, c, df. rewrite F4, F5. done.
Qed.

Lemma relatorio_pis_cofins_witness :
  ∃ bruta liquida c df,
    calcular_fluxos_com_impostos compra_5 7 (Q2Qc 100) = Ok (bruta, liquida, c) ∧
    montar_df compra_5 7 bruta liquida = Ok df ∧
    df_PIS df = PIS c ∧ df_COFINS df = COFINS c.
Proof.
  apply (relatorio_pis_cofins compra_5 7 (Q2Qc 100));
    [reflexivity | simpl; lia | compute_done | compute_done | compute_done].
Defined.

(** ** Outcomes of the simulation *)

Section resultados_da_simulacao.

Variable npf_irr : list Qc → option Qc.
Variable npf_pmt : Qc → nat → Qc → Qc.
Variable root_scalar : (Qc → result Qc) → Qc → Qc → option Qc.

Lemma goal_seek_escolhe (a : args) (ei : nat) :
  (num_parcelas a < ei)%nat →
  ∃ f_vals,
    length f_vals = length (pmt_grid npf_pmt a) ∧
    goal_seek npf_irr npf_pmt root_scalar a ei
    = escolhe_pmt (busca_raizes root_scalar (funcao_goal_seek_impostos npf_irr a ei)
                     (pmt_grid npf_pmt a) f_vals).
Proof.
  intros Hei.
  destruct (mapM_result_Ok (funcao_goal_seek_impostos npf_irr a ei)
              (pmt_grid npf_pmt a)) as (f_vals & Hmap & Hlen & _).
  { intros x. by apply funcao_goal_seek_impostos_Ok. }
  exists f_vals. split; [done |]. unfold goal_seek. by rewrite Hmap.
Qed.

Lemma goal_seek_casos (a : args) (ei : nat) :
  (num_parcelas a < ei)%nat →
  (∃ p, goal_seek npf_irr npf_pmt root_scalar a ei = Ok p)
  ∨ goal_seek npf_irr npf_pmt root_scalar a ei = Raise sem_solucao.
Proof.
  intros Hei. destruct (goal_seek_escolhe a ei Hei) as (f_vals & _ & ->).
  destruct (busca_raizes _ _ _ _) as [| r rs] eqn:Hr; [by right |].
  left. destruct (escolhe_pmt_spec (r :: rs)) as [(p & Hp & _) _]; eauto.
Qed.

(** X11.  The simulation has four outcomes, in this order of precedence: an
    operation type that is neither "aluguel" nor "compra", in any case of
    letters, raises the invalid-type error; otherwise a search that keeps no
    root raises the no-solution error; otherwise fewer than four instalments
    raise the empty-maximum error; otherwise it returns the payment found,
    the two flows the builder makes at that payment and the report table of
    these flows. *)
Theorem simular_emprestimo_resultados (a : args) :
  let r := simular_emprestimo npf_irr npf_pmt root_scalar a in
  (lower (tipo_operacao a) ≠ "compra" → lower (tipo_operacao a) ≠ "aluguel" →
   r = Raise tipo_invalido) ∧
  (∀ ei, extra_index (tipo_operacao a) (num_parcelas a) = Ok ei →
     (goal_seek npf_irr npf_pmt root_scalar a ei = Raise sem_solucao ∧
      r = Raise sem_solucao)
     ∨ ∃ p, goal_seek npf_irr npf_pmt root_scalar a ei = Ok p ∧
            (((num_parcelas a ≤ 3)%nat ∧ r = Raise max_vazio)
             ∨ ((4 ≤ num_parcelas a)%nat ∧
                ∃ bruta liquida c df,
                  calcular_fluxos_com_impostos a ei p = Ok (bruta, liquida, c) ∧
                  montar_df a ei bruta liquida = Ok df ∧
                  r = Ok (p, bruta, liquida, df)))).
Proof.
  intros r. split.
  - intros Hco Hal. unfold r, simular_emprestimo, extra_index.
    by rewrite !bool_decide_eq_false_2.
  - intros ei He. pose proof He as [Hei _]%extra_index_Ok.
    unfold r, simular_emprestimo. rewrite He. simpl.
    destruct (goal_seek_casos a ei Hei) as [[p Hp] | Hfail].
    + right. exists p. split; [done |]. rewrite Hp. simpl.
      destruct (calcular_fluxos_spec a ei p Hei) as (bruta & liquida & c & Hc & _).
      rewrite Hc. simpl.
      destruct (decide (4 ≤ num_parcelas a)%nat) as [Hn | Hn].
      * right. split; [done |].
        destruct (montar_df_spec a ei bruta liquida Hei Hn) as (mx & df & _ & Hdf & _).
        exists bruta, liquida, c, df. rewrite Hdf. done.
      * left. split; [lia |]. by rewrite montar_df_sem_impostos by lia.
    + left. rewrite Hfail. done.
Qed.

(** X12.  A grid of fewer than two points has no adjacent pair: the search
    fails with the no-solution error, whatever the objective is. *)
Theorem goal_seek_grade_pequena (a : args) (ei : nat) :
  extra_index (tipo_operacao a) (num_parcelas a) = Ok ei →
  (n_points a ≤ 1)%nat →
  goal_seek npf_irr npf_pmt root_scalar a ei = Raise sem_solucao.
Proof.
  intros [Hei _]%extra_index_Ok Hn.
  destruct (goal_seek_escolhe a ei Hei) as (f_vals & _ & ->).
  unfold busca_raizes.
  assert (length (pmt_grid npf_pmt a) = n_points a) as ->.
  { unfold pmt_grid, linspace. by rewrite length_fmap, length_seq. }
  by replace (n_points a - 1)%nat with 0%nat by lia.
Qed.

End resultados_da_simulacao.

Lemma simular_emprestimo_resultados_witness :
  simular_emprestimo irr_uma_parcela pmt_price root_scalar_meio
    (Args 1 1 0 0 0 0 "leasing" None None 3 0 0 0 0)
  = Raise tipo_invalido.
Proof.
  apply (simular_emprestimo_resultados irr_uma_parcela pmt_price root_scalar_meio
           (Args 1 1 0 0 0 0 "leasing" None None 3 0 0 0 0)); compute_done.
Defined.

Lemma goal_seek_grade_pequena_witness :
  goal_seek irr_uma_parcela pmt_price root_scalar_meio
    (Args 1 1 (Q2Qc 0.5) 0 0 0 "aluguel" (Some 0) (Some 2) 1 0 0 0 0) 2
  = Raise sem_solucao.
Proof.
  apply (goal_seek_grade_pequena irr_uma_parcela pmt_price root_scalar_meio
           (Args 1 1 (Q2Qc 0.5) 0 0 0 "aluguel" (Some 0) (Some 2) 1 0 0 0 0) 2);
    [reflexivity | simpl; lia].
Defined.

(** ** Summary of the simulation *)

Lemma filter_todos {A} (P : A → Prop) `{!∀ x, Decision (P x)} (xs : list A) :
  (∀ x, x ∈ xs → P x) → filter P xs = xs.
Proof.
  induction xs as [| x xs IH]; intros Hall; [done |].
  rewrite filter_cons_True by (apply Hall; left).
  f_equal. apply IH. intros y Hy. apply Hall. by right.
Qed.

Lemma filter_nenhum {A} (P : A → Prop) `{!∀ x, Decision (P x)} (xs : list A) :
  (∀ x, x ∈ xs → ¬ P x) → filter P xs = [].
Proof.
  induction xs as [| x xs IH]; intros Hall; [done |].
  rewrite filter_cons_False by (apply Hall; left).
  apply IH. intros y Hy. apply Hall. by right.
Qed.




Lemma Qcpower_positivo (x : Qc) (n : nat) : 0 < x → 0 < x ^ n.
Proof.
  intros Hx. induction n as [| n IH]; [compute_done |].
  simpl. rewrite <- (Qcmult_0_l (x ^ n)). by apply Qcmult_lt_compat_r.
Qed.

Lemma parcela_reajustada_positiva (a : args) (pmt_bruta : Qc) (p : nat) :
  0 < pmt_bruta → 0 ≤ inflacao_anual a → 0 < parcela_reajustada a pmt_bruta p.
Proof.
  intros Hpmt Hinf. unfold parcela_reajustada.
  rewrite <- (Qcmult_0_l ((1 + inflacao_anual a) ^ ((p - 1) / 12))).
  apply Qcmult_lt_compat_r; [| done].
  apply Qcpower_positivo. apply Qcplus_pos_nonneg; [compute_done | done].
Qed.



(** X14.  With at least four instalments, a principal that is not zero, a
    positive payment and an inflation that is not negative, the summary's
    count of instalments, the number of rows with a gross flow different from
    zero less one, is the number of instalments. *)
Theorem resumo_parcelas (a : args) (ei : nat) (pmt_bruta : Qc) :
  extra_index (tipo_operacao a) (num_parcelas a) = Ok ei →
  (4 ≤ num_parcelas a)%nat →
  valor_emprestado a ≠ 0 → 0 < pmt_bruta → 0 ≤ inflacao_anual a →
  ∃ bruta liquida c df,
    calcular_fluxos_com_impostos a ei pmt_bruta = Ok (bruta, liquida, c) ∧
    montar_df a ei bruta liquida = Ok df ∧
    Parcelas (df_resumo df) = Z.of_nat (num_parcelas a).
Proof.
  intros [Hei _]%extra_index_Ok Hn Hval Hpmt Hinf.
  destruct (calcular_fluxos_estado a ei pmt_bruta Hei) as (st & Hinv & [_ Hre] & Hc).
  destruct (retorno_casos a ei pmt_bruta st Hei Hinv)
    as (bruta & liquida & c & Hr & Hb & _ & H0 & Hgap & Hextra & _).
  destruct (montar_df_spec a ei bruta liquida Hei Hn)
    as (mx & df & _ & Hdf & (_ & F2 & _) & _).
  exists bruta, liquida, c, df. rewrite Hc, Hr. split; [done |]. split; [done |].
  destruct Hinv as ((L1 & _) & _). rewrite <- Hb in L1, Hre.
  unfold df_resumo. simpl. rewrite F2.
  rewrite <- (take_drop (S (num_parcelas a)) bruta), filter_app.
  rewrite filter_todos, filter_nenhum.
  - rewrite app_nil_r, length_take. lia.
  - intros x (i & Hx)%list_elem_of_lookup_1. rewrite lookup_drop in Hx.
    intros Hne. apply Hne.
    destruct (decide (S (num_parcelas a) + i = ei)%nat) as [He | He].
    + rewrite He in Hx. destruct Hextra as (Hz & _). congruence.
    + assert (S (num_parcelas a) + i < S ei)%nat
        by (rewrite <- L1; by eapply lookup_lt_Some).
      destruct (Hgap (S (num_parcelas a) + i)%nat ltac:(lia)) as (Hz & _).
      congruence.
  - intros x (i & Hx & Hi)%elem_of_take.
    destruct (decide (i = 0%nat)) as [-> | Hi0].
    + destruct H0 as (Hz & _). rewrite Hz in Hx. injection Hx as <-.
      intros Heq. apply Hval. rewrite <- (Qcopp_involutive (valor_emprestado a)).
      rewrite Heq. ring.
    + rewrite (Hre i) in Hx by lia. injection Hx as <-.
      apply not_eq_sym, Qclt_not_eq. by apply parcela_reajustada_positiva.
Qed.

Lemma resumo_parcelas_witness :
  ∃ bruta liquida c df,
    calcular_fluxos_com_impostos compra_5 7 (Q2Qc 100) = Ok (bruta, liquida, c) ∧
    montar_df compra_5 7 bruta liquida = Ok df ∧
    Parcelas (df_resumo df) = 5%Z.
Proof.
  apply (resumo_parcelas compra_5 7 (Q2Qc 100));
    [reflexivity | simpl; lia | compute_done | compute_done | compute_done].
Defined.

(** ** Evolution of the balance *)

Lemma recuperacao_ir_lookup (tipo : string) (linhas : list linha) (i : nat) (l : linha) :
  linhas !! i = Some l →
  recuperacao_ir tipo linhas !! i =
  Some (if bool_decide (tipo = "compra" ∧ ultimos_4 linhas (Mes l)) then 0
        else - parcela l * recuperacao_irpj).
Proof.
  intros Hl. unfold recuperacao_ir. case_bool_decide as Ht.
  - rewrite lookup_zip_with, Hl. simpl. rewrite list_lookup_fmap, Hl. simpl.
    f_equal. repeat case_bool_decide; try done; tauto.
  - rewrite list_lookup_fmap, Hl. simpl. f_equal.
    rewrite bool_decide_eq_false_2; [done | tauto].
Qed.

Lemma evolui_seq_inv (tipo : string) (linhas : list linha)
    (I : nat → evolucao → Prop) (len start : nat) (ev0 : evolucao) :
  I start ev0 →
  (∀ k ev, (start ≤ k < start + len)%nat → I k ev →
           ∃ ev', passo_evolucao tipo linhas k ev = Feito ev' ∧ I (S k) ev') →
  ∃ ev', evolui tipo linhas (seq start len) ev0 = Feito ev' ∧ I (start + len)%nat ev'.
Proof.
  revert start ev0. induction len as [| len IH]; intros start ev0 H0 Hstep.
  - exists ev0. by rewrite Nat.add_0_r.
  - destruct (Hstep start ev0) as (ev1 & Hb & H1); [lia | done |].
    destruct (IH (S start) ev1) as (ev' & Hf & H'); [done | |].
    { intros k ev Hk. apply Hstep. lia. }
    exists ev'. simpl. rewrite Hb. split; [done |].
    by replace (start + S len)%nat with (S start + len)%nat by lia.
Qed.

(** X15.  The roll-forward of the balance raises [KeyError] at label -1 when
    the first row of the table is not month 0, and only then.  Otherwise it
    fills the three columns, one cell per row: a row of month 0 keeps the
    initial value in all three; in every other row the opening balance is the
    balance of the row before times (1 + cdi), the balance is the opening
    balance plus the instalment plus its recovery, and the net revenue is the
    instalment plus its recovery. *)
Theorem simular_saldo_linhas (tipo : string) (linhas : list linha) :
  (∀ l0, linhas !! 0%nat = Some l0 → Mes l0 ≠ 0%nat →
     simular_saldo tipo linhas = KeyError (-1)) ∧
  ((∀ l0, linhas !! 0%nat = Some l0 → Mes l0 = 0%nat) →
   ∃ ev, simular_saldo tipo linhas = Feito ev ∧
         length (Inicio_Mes ev) = length linhas ∧
         length (Saldo ev) = length linhas ∧
         length (Rec_Liquida ev) = length linhas ∧
         ∀ i l, linhas !! i = Some l →
           if bool_decide (Mes l = 0%nat)
           then linha_inicial ev i (soma_ajustada tipo linhas)
           else linha_evoluida tipo linhas ev i l).
Proof.
  split.
  - intros l0 Hl0 Hm. unfold simular_saldo.
    destruct linhas as [| l ls]; [done |]. injection Hl0 as ->.
    cbn [length seq evolui]. unfold passo_evolucao. cbn [lookup list_lookup].
    by rewrite bool_decide_eq_false_2.
  - intros H0. unfold simular_saldo. set (V := soma_ajustada tipo linhas).
    destruct (evolui_seq_inv tipo linhas
                (λ k ev, length (Inicio_Mes ev) = length linhas ∧
                         length (Saldo ev) = length linhas ∧
                         length (Rec_Liquida ev) = length linhas ∧
                         ∀ i l, linhas !! i = Some l →
                           if bool_decide (Mes l = 0%nat) then linha_inicial ev i V
                           else (i < k)%nat → linha_evoluida tipo linhas ev i l)
                (length linhas) 0 (evolucao_inicial linhas V))
      as (ev & Hev & Hl1 & Hl2 & Hl3 & Hall).
    + unfold evolucao_inicial. cbn. rewrite length_fmap. split_and!; [done.. |].
      intros i l Hl. case_bool_decide as Hm; [| lia].
      unfold linha_inicial. cbn. rewrite list_lookup_fmap, Hl. cbn.
      by rewrite bool_decide_eq_true_2.
    + intros k ev Hk (Hl1 & Hl2 & Hl3 & Hall).
      destruct (lookup_lt_is_Some_2 linhas k) as [lk Hlk]; [lia |].
      unfold passo_evolucao. rewrite Hlk. case_bool_decide as Hmk.
      { exists ev. split; [done |]. split_and!; [done.. |].
        intros i l Hl. specialize (Hall i l Hl). case_bool_decide; [done |].
        intros Hi. apply Hall. destruct (decide (i = k)) as [-> | ?]; [| lia].
        congruence. }
      destruct k as [| k]; [by specialize (H0 lk Hlk) |].
      destruct (lookup_lt_is_Some_2 (Saldo ev) k) as [anterior Hant]; [lia |].
      pose proof (recuperacao_ir_lookup tipo linhas (S k) lk Hlk) as Hrec.
      eexists. split; [done |]. cbn [Inicio_Mes Saldo Rec_Liquida].
      rewrite !length_insert. split_and!; [done.. |].
      intros i l Hl. specialize (Hall i l Hl).
      destruct (decide (i = S k)) as [-> | Hne].
      * assert (l = lk) as -> by congruence.
        rewrite bool_decide_eq_false_2 by done. intros _.
        exists k, anterior. eexists. split; [done |].
        cbn [Inicio_Mes Saldo Rec_Liquida].
        rewrite list_lookup_insert_ne by lia. split; [done |].
        split; [exact Hrec |].
        rewrite !list_lookup_insert_eq by lia.
        unfold Py.get. rewrite Hant, Hrec. by cbn.
      * unfold linha_inicial, linha_evoluida in *.
        revert Hall. destruct (bool_decide (Mes l = 0%nat)); intros Hall.
        -- destruct Hall as (Ha & Hb & Hc).
           cbn [Inicio_Mes Saldo Rec_Liquida].
           by rewrite !list_lookup_insert_ne by done.
        -- intros Hi. destruct Hall as (j & ant & rec & -> & Hs & Hr & Ha & Hb & Hc);
             [lia |].
           exists j, ant, rec. cbn [Inicio_Mes Saldo Rec_Liquida].
           rewrite !list_lookup_insert_ne by lia. done.
    + exists ev. cbn in Hev. split; [done |]. split_and!; [done.. |].
      intros i l Hl. specialize (Hall i l Hl). case_bool_decide; [done |].
      apply Hall. by apply lookup_lt_Some in Hl.
Qed.

Lemma simular_saldo_linhas_witness :
  simular_saldo "Compra" linhas_sem_mes_0 = KeyError (-1)
  ∧ ∃ ev, simular_saldo "Compra" linhas_compra_28 = Feito ev
          ∧ length (Saldo ev) = 29%nat.
Proof.
  split.
  - apply (proj1 (simular_saldo_linhas "Compra" linhas_sem_mes_0) (Linha 1 (Q2Qc 100)));
      [reflexivity | cbn; lia].
  - destruct (proj2 (simular_saldo_linhas "Compra" linhas_compra_28))
      as (ev & Hev & _ & Hlen & _).
    + by intros l0 [= <-].
    + exists ev. split; [exact Hev | exact Hlen].
Defined.

(** ** The Brazilian format and its reading *)

Lemma chars_de_uint_digitos d : Forall digito (chars_de_uint d).
Proof.
  induction d; cbn [chars_de_uint]; [done|..];
    (apply Forall_cons; split; [unfold digito; repeat constructor|done]).
Qed.

Lemma digito_sem_separador c : digito c → sem_separador c ∧ c ≠ "-"%char.
Proof.
  unfold digito, sem_separador. intros Hc.
  repeat (apply elem_of_cons in Hc as [->|Hc]; [done|]).
  by apply elem_of_nil in Hc.
Qed.

Lemma uint_de_chars_de_uint d : uint_de_chars (chars_de_uint d) = Some d.
Proof. induction d; cbn [chars_de_uint uint_de_chars]; [done|..]; by rewrite IHd. Qed.

Lemma digitos_nao_vazio n : digitos n ≠ [].
Proof.
  unfold digitos. destruct n as [|p]; [done|].
  cbn [N.to_uint]. pose proof (DecimalPos.Unsigned.to_uint_nonnil p) as Hp.
  by destruct (Pos.to_uint p).
Qed.

Lemma natural_digitos n : natural (digitos n) = Some n.
Proof.
  pose proof (digitos_nao_vazio n) as Hn. unfold natural.
  destruct (digitos n) eqn:Hd; [done|]. rewrite <- Hd. unfold digitos.
  rewrite uint_de_chars_de_uint. cbn. by rewrite DecimalN.Unsigned.of_to.
Qed.

Lemma digitos_2_spec r :
  (r < 100)%N →
  natural (digitos_2 r) = Some r ∧ length (digitos_2 r) = 2%nat
  ∧ Forall digito (digitos_2 r).
Proof.
  intros Hr.
  assert (Hall : Forall (λ r, natural (digitos_2 r) = Some r
                              ∧ length (digitos_2 r) = 2%nat)
                        (N.of_nat <$> seq 0 100)).
  { compute_done. }
  rewrite Forall_forall in Hall.
  destruct (Hall r) as [H1 H2].
  { apply list_elem_of_fmap. exists (N.to_nat r). split; [lia|].
    apply elem_of_seq. lia. }
  split_and!; [done..|].
  unfold digitos_2, digitos. apply Forall_app; split; apply chars_de_uint_digitos.
Qed.

Lemma replace_app a b s t : replace a b (s ++ t) = replace a b s ++ replace a b t.
Proof. apply fmap_app. Qed.

Lemma ida_e_volta_app s t : ida_e_volta (s ++ t) = ida_e_volta s ++ ida_e_volta t.
Proof.
  unfold ida_e_volta, remove. by rewrite !replace_app, filter_app, replace_app.
Qed.

Lemma ida_e_volta_reverse s : ida_e_volta (reverse s) = reverse (ida_e_volta s).
Proof.
  unfold ida_e_volta, remove, replace.
  by rewrite !fmap_reverse, filter_reverse, fmap_reverse.
Qed.

Lemma ida_e_volta_cons c s : ida_e_volta (c :: s) = ida_e_volta [c] ++ ida_e_volta s.
Proof. apply (ida_e_volta_app [c]). Qed.

Lemma ida_e_volta_char c :
  c ≠ "X"%char →
  ida_e_volta [c] = if decide (c = ","%char) then []
                    else if decide (c = "."%char) then ["."%char] else [c].
Proof.
  intros HX. unfold ida_e_volta, remove, replace. cbn [fmap list_fmap].
  repeat case_decide; simplify_eq; try done;
    rewrite ?filter_cons, ?filter_nil; repeat case_decide; simplify_eq;
    try done; cbn [fmap list_fmap]; repeat case_decide; by simplify_eq.
Qed.

Lemma ida_e_volta_limpo s : Forall sem_separador s → ida_e_volta s = s.
Proof.
  induction 1 as [|c s (Hv & Hp & HX) _ IH]; [done|].
  rewrite ida_e_volta_cons, IH, ida_e_volta_char by done.
  by rewrite !decide_False.
Qed.

Lemma ida_e_volta_milhares n s :
  Forall sem_separador s → ida_e_volta (milhares n s) = s.
Proof.
  intros Hs. revert n. induction Hs as [|c s Hc Hs IH]; intros n; [done|].
  assert (Hcs : ida_e_volta [c] = [c]) by (apply ida_e_volta_limpo; by constructor).
  cbn [milhares]. case_decide.
  - rewrite ida_e_volta_cons, ida_e_volta_char by done. cbn [decide].
    rewrite decide_True by done.
    by rewrite ida_e_volta_cons, Hcs, IH.
  - by rewrite ida_e_volta_cons, Hcs, IH.
Qed.

Lemma digitos_limpos n : Forall sem_separador (digitos n).
Proof.
  eapply Forall_impl; [apply chars_de_uint_digitos|].
  intros c Hc. by apply digito_sem_separador.
Qed.

Lemma ida_e_volta_formato k :
  texto_para_float (formatar_centavos k)
  = float_decimal
      ((if bool_decide (k < 0)%Z then ["-"%char] else [])
       ++ digitos (Z.abs_N k / 100) ++ "."%char :: digitos_2 (Z.abs_N k mod 100)).
Proof.
  unfold texto_para_float, formatar_centavos.
  change (replace "," "." (remove "." (replace "X" "." (replace "." ","
            (replace "," "X" (formato_2f k))))))
    with (ida_e_volta (formato_2f k)).
  f_equal. unfold formato_2f. cbv zeta.
  assert (H2 : (Z.abs_N k mod 100 < 100)%N) by (apply N.mod_lt; lia).
  destruct (digitos_2_spec _ H2) as (_ & _ & Hd2).
  rewrite !ida_e_volta_app, ida_e_volta_reverse, ida_e_volta_milhares,
    reverse_involutive by (apply Forall_reverse, digitos_limpos).
  rewrite (ida_e_volta_cons "."), ida_e_volta_char by done.
  rewrite (ida_e_volta_limpo (digitos_2 _)).
  2:{ eapply Forall_impl; [exact Hd2|]. intros c Hc. by apply digito_sem_separador. }
  f_equal. by case_bool_decide.
Qed.

Lemma separa_app sep s t :
  sep ∉ s → separa sep (s ++ sep :: t) = (s, Some t).
Proof.
  induction s as [|c s IH]; intros Hs; cbn [app separa].
  - by rewrite decide_True.
  - apply not_elem_of_cons in Hs as [Hc Hs].
    by rewrite decide_False, IH.
Qed.

Lemma digitos_sem c n : ¬ digito c → c ∉ digitos n.
Proof.
  intros Hc Hin. pose proof (chars_de_uint_digitos (N.to_uint n)) as Hd.
  rewrite Forall_forall in Hd. by apply Hc, Hd.
Qed.

Lemma float_decimal_centavos (neg : bool) (m : N) :
  float_decimal ((if neg then ["-"%char] else [])
                 ++ digitos (m / 100) ++ "."%char :: digitos_2 (m mod 100))
  = Some ((if neg then - Qc_de_N m else Qc_de_N m) / Qc_of_Z 100).
Proof.
  assert (H2 : (m mod 100 < 100)%N) by (apply N.mod_lt; lia).
  destruct (digitos_2_spec _ H2) as (Hf & Hl & _).
  assert (Hp : "."%char ∉ digitos (m / 100)).
  { apply digitos_sem. unfold digito. intros Hc.
    repeat (apply elem_of_cons in Hc as [?|Hc]; [done|]).
    by apply elem_of_nil in Hc. }
  assert (Hval : Qc_de_N (m / 100)
                 + Qc_de_N (m mod 100) / Qc_de_N (10 ^ N.of_nat 2)
                 = Qc_de_N m / Qc_of_Z 100).
  { change (Qc_de_N (10 ^ N.of_nat 2)) with (Qc_of_Z 100).
    assert (Hm : Qc_de_N m
                 = Qc_of_Z 100 * Qc_de_N (m / 100) + Qc_de_N (m mod 100)).
    { unfold Qc_de_N. rewrite <- Z2Qc_inj_mul, <- Z2Qc_inj_add. f_equal.
      pose proof (N.div_mod m 100). lia. }
    rewrite Hm. field. rewrite <- Z2Qc_inj_0. by intros ?%Z2Qc_inj. }
  assert (Hcorpo : ∀ r, r = digitos (m / 100) ++ "."%char :: digitos_2 (m mod 100) →
            (let '(int, frac) := separa "." r in
             i ← natural int;
             match frac with
             | None => Some (Qc_de_N i)
             | Some fs =>
                 f ← natural fs;
                 Some (Qc_de_N i + Qc_de_N f / Qc_de_N (10 ^ N.of_nat (length fs)))
             end) = Some (Qc_de_N m / Qc_of_Z 100)).
  { intros r ->. rewrite separa_app by done. rewrite natural_digitos. cbn.
    rewrite Hf. cbn. rewrite Hl. by rewrite Hval. }
  unfold float_decimal. destruct neg.
  - cbn [app]. rewrite decide_True by done.
    specialize (Hcorpo _ eq_refl).
    destruct (separa "." _) as [int frac].
    destruct (natural int) as [i|]; [|done]. cbn in *.
    destruct (match frac with None => _ | Some _ => _ end) as [v|]; [|done].
    cbn in *. simplify_eq. f_equal. unfold Qcdiv. ring.
  - cbn [app].
    pose proof (digitos_nao_vazio (m / 100)) as Hne.
    pose proof (chars_de_uint_digitos (N.to_uint (m / 100))) as Hd.
    fold (digitos (m / 100)) in Hd.
    specialize (Hcorpo _ eq_refl).
    destruct (digitos (m / 100)) as [|c ds] eqn:Hds; [done|].
    apply Forall_cons in Hd as [Hc _].
    apply digito_sem_separador in Hc as [_ Hc].
    cbn [app]. rewrite decide_False by done.
    cbn [app] in Hcorpo.
    destruct (separa "." _) as [int frac].
    destruct (natural int) as [i|]; [|done]. cbn in *.
    destruct (match frac with None => _ | Some _ => _ end) as [v|]; [|done].
    cbn in *. by simplify_eq.
Qed.

Lemma ler_centavos k :
  texto_para_float (formatar_centavos k) = Some (Qc_of_Z k / Qc_of_Z 100).
Proof.
  rewrite ida_e_volta_formato.
  rewrite (float_decimal_centavos (bool_decide (k < 0)%Z) (Z.abs_N k)).
  do 2 f_equal. unfold Qc_de_N. case_bool_decide.
  - rewrite <- Z2Qc_inj_opp. f_equal. lia.
  - f_equal. lia.
Qed.

Section leitura_do_formato.

Variable vezes_100 : Qc → Qc.

(** X16.  The filter of line 651 drops no row.  It runs after lines 581-582
    have turned every number of the table into a text, and a text differs
    from 0: the mask is true on every row, so the recovery table keeps all
    the rows of the report, month 0 and the months without a payment
    included. *)
Theorem filtro_mantem_todas {A} (col : list celula) (linhas : list A) :
  length linhas = length col →
  seleciona (diferente_de_zero <$> formata_coluna vezes_100 col) linhas = linhas.
Proof.
  unfold seleciona, formata_coluna. revert linhas.
  induction col as [|c col IH]; intros [|l linhas] Hlen; try done.
  cbn [fmap list_fmap zip zip_with]. rewrite filter_cons_True.
  - cbn [fmap list_fmap snd]. f_equal. apply IH. by simplify_eq/=.
  - cbn. by destruct c.
Qed.

(** X17.  The recovery simulator reads back from a numeric cell of the
    formatted table exactly the number of cents that line 13 computed,
    divided by 100: for less than 10^15 cents, the text that
    [formatar_brasileiro] writes is read by line 659 as
    [math.ceil(valor * 100) / 100], where the product is the rounded one.
    The reading never fails, and the sign and the thousands separators do
    not change the value. *)
Theorem formatar_e_ler (v : Qc) :
  (Z.abs (Qceiling (vezes_100 v)) < 10 ^ 15)%Z →
  ∃ s, formatar_brasileiro vezes_100 (Numero v) = Texto s
       ∧ texto_para_float s
         = Some (Qc_of_Z (Qceiling (vezes_100 v)) / Q2Qc 100).
Proof.
  intros _. eexists. split; [reflexivity|]. rewrite ler_centavos.
  do 2 f_equal.
Qed.

End leitura_do_formato.

Lemma filtro_mantem_todas_witness :
  length [0%nat; 1%nat; 2%nat] = length [Numero 0; Numero (Q2Qc 100); Numero 0]
  ∧ seleciona (diferente_de_zero
               <$> formata_coluna vezes_100_exato
                     [Numero 0; Numero (Q2Qc 100); Numero 0])
      [0%nat; 1%nat; 2%nat]
    = [0%nat; 1%nat; 2%nat].
Proof.
  split; [reflexivity|].
  apply (filtro_mantem_todas vezes_100_exato
           [Numero 0; Numero (Q2Qc 100); Numero 0] [0%nat; 1%nat; 2%nat]).
  reflexivity.
Defined.

Lemma formatar_e_ler_witness :
  (Z.abs (Qceiling (vezes_100_exato (Q2Qc 12345.5))) < 10 ^ 15)%Z
  ∧ ∃ s, formatar_brasileiro vezes_100_exato (Numero (Q2Qc 12345.5)) = Texto s
         ∧ texto_para_float s
           = Some (Qc_of_Z (Qceiling (vezes_100_exato (Q2Qc 12345.5))) / Q2Qc 100).
Proof.
  split; [by vm_compute|].
  apply (formatar_e_ler vezes_100_exato (Q2Qc 12345.5)). by vm_compute.
Defined.

(** ** Login and navigation *)

Lemma authenticate_senhas u p :
  authenticate u p = true → p ∈ ["principal"; "secundario"; "consulta"].
Proof.
  unfold authenticate. destruct (users !! u) as [q|] eqn:Hu; [|done].
  intros ->%bool_decide_eq_true.
  assert (Hall : map_Forall (λ _ q, q ∈ ["principal"; "secundario"; "consulta"])
                            users) by compute_done.
  exact (Hall _ _ Hu).
Qed.

Lemma sidebar_coerente ss a :
  sessao_coerente ss → ss !! "authenticated" = Some a → verdadeiro a = true →
  sidebar ss = Some paginas.
Proof.
  intros Hc Ha Hv. destruct (Hc a Ha Hv) as (u & p & Hu & Hp & Hauth).
  unfold sidebar. rewrite Hu, Hp. cbn.
  apply authenticate_senhas in Hauth.
  repeat (apply elem_of_cons in Hauth as [->|Hauth]; [done|]).
  by apply elem_of_nil in Hauth.
Qed.

Lemma autentica_coerente e ss :
  authenticate (username e) (password e) = true →
  sessao_coerente (autentica e ss).
Proof.
  intros Hauth a _ _. exists (username e), (password e).
  unfold autentica. by simplify_map_eq by done.
Qed.

Lemma nao_autenticada_coerente ss :
  ss !! "authenticated" = Some (Bool false) → sessao_coerente ss.
Proof. intros Hf a Ha Hv. by simplify_eq. Qed.

Lemma logout_coerente ss : sessao_coerente (logout ss).
Proof.
  apply nao_autenticada_coerente. unfold logout. cbv zeta.
  repeat case_match; by simplify_map_eq by done.
Qed.

Lemma insert_coerente k v ss :
  k ≠ "authenticated" → k ≠ "username" → k ≠ "senha" →
  sessao_coerente ss → sessao_coerente (<[k := v]> ss).
Proof.
  intros ??? Hc a Ha Hv. rewrite lookup_insert_ne in Ha by done.
  destruct (Hc a Ha Hv) as (u & p & Hu & Hp & Hauth).
  exists u, p. by rewrite !lookup_insert_ne by done.
Qed.

Lemma check_auth_coerente ss : sessao_coerente ss → sessao_coerente (check_auth ss).
Proof.
  intros Hc. unfold check_auth. case_match; [done|].
  apply nao_autenticada_coerente. by simplify_map_eq by done.
Qed.

Lemma botao_entrar_coerente e erro ss ss' s :
  sessao_coerente ss → botao_entrar e erro ss = (ss', s) →
  sessao_coerente ss' ∧ (s = Rerun ∨ s = Menu paginas ∨ ∃ b, s = Login b).
Proof.
  unfold botao_entrar. intros Hc Hb.
  repeat case_match; simplify_eq; (split; [|by eauto 6]); try done.
  by apply autentica_coerente.
Qed.

Lemma login_coerente e ss :
  sessao_coerente ss →
  ∃ ss' s, login e ss = Some (ss', s) ∧ sessao_coerente ss'
           ∧ (s = Rerun ∨ s = Menu paginas ∨ ∃ b, s = Login b).
Proof.
  intros Hc. unfold login.
  set (ss1 := match ss !! "password_submitted" with
              | None => <["password_submitted" := Bool false]> ss
              | Some _ => ss
              end).
  assert (Hc1 : sessao_coerente ss1).
  { subst ss1. case_match; [done|]. by apply insert_coerente. }
  assert (Hs : is_Some (ss1 !! "password_submitted")).
  { subst ss1. case_match eqn:Hp; [by rewrite Hp|]. by simplify_map_eq by done. }
  destruct Hs as [submitted Hs]. cbv zeta. rewrite Hs. cbn.
  destruct (verdadeiro submitted).
  - destruct (authenticate _ _) eqn:Hauth.
    + eexists _, _. split_and!; [done| |by left]. by apply autentica_coerente.
    + destruct (botao_entrar e true _) as [ss' s] eqn:Hb.
      apply botao_entrar_coerente in Hb as [??]; [|by apply insert_coerente].
      by eexists _, _.
  - destruct (botao_entrar e false _) as [ss' s] eqn:Hb.
    apply botao_entrar_coerente in Hb as [??]; [|done].
    by eexists _, _.
Qed.

Lemma script_coerente e ss :
  sessao_coerente ss →
  ∃ ss' s, script e ss = Some (ss', s) ∧ sessao_coerente ss'
           ∧ (s = Rerun ∨ s = Menu paginas ∨ ∃ b, s = Login b).
Proof.
  intros Hc%check_auth_coerente. unfold script. cbv zeta.
  assert (Ha : is_Some (check_auth ss !! "authenticated")).
  { unfold check_auth. case_match eqn:Hp; [by rewrite Hp|]. by simplify_map_eq by done. }
  destruct Ha as [a Ha]. rewrite Ha. cbn.
  destruct (verdadeiro a) eqn:Hv.
  - rewrite (sidebar_coerente _ a) by done. cbn. eexists _, _.
    split_and!; [done..|]. right. by left.
  - by apply login_coerente.
Qed.

Lemma chama_coerente cb ss : sessao_coerente ss → sessao_coerente (chama cb ss).
Proof.
  intros Hc. destruct cb as [[]|]; cbn [chama]; [|by apply insert_coerente|done].
  apply logout_coerente.
Qed.

Lemma alcancavel_coerente ss : alcancavel ss → sessao_coerente ss.
Proof.
  induction 1 as [|cb e ss ss' s _ IH Hi].
  - intros a Ha. by rewrite lookup_empty in Ha.
  - unfold interacao in Hi.
    destruct (script_coerente e (chama cb ss)) as (ss2 & s2 & Hs & Hc & _);
      [by apply chama_coerente|].
    by simplify_eq.
Qed.

(** X18.  In a session that started empty, whatever the user types and
    clicks, an interaction never stops on a missing key of
    [st.session_state] and never shows the "Help" menu: the script ends by
    asking for a rerun, by showing the login form, or by showing the menu
    "Premissas", "Cockpit", "Proposta". *)
Theorem navegacao_segura cb e ss :
  alcancavel ss →
  ∃ ss' s, interacao cb e ss = Some (ss', s)
           ∧ (s = Rerun ∨ s = Menu paginas ∨ ∃ erro, s = Login erro).
Proof.
  intros Hc%alcancavel_coerente%(chama_coerente cb).
  destruct (script_coerente e _ Hc) as (ss' & s & Hs & _ & Hh).
  by exists ss', s.
Qed.

Lemma navegacao_segura_witness :
  alcancavel (autentica (Entrada "OV" "principal" true)
                (<["password_submitted" := Bool false]>
                   (<["authenticated" := Bool false]> ∅)))
  ∧ ∃ ss' s,
      interacao None (Entrada "" "" false)
        (autentica (Entrada "OV" "principal" true)
           (<["password_submitted" := Bool false]>
              (<["authenticated" := Bool false]> ∅)))
      = Some (ss', s)
      ∧ (s = Rerun ∨ s = Menu paginas ∨ ∃ erro, s = Login erro).
Proof.
  assert (Ha : alcancavel (autentica (Entrada "OV" "principal" true)
                (<["password_submitted" := Bool false]>
                   (<["authenticated" := Bool false]> ∅)))).
  { apply (alcancavel_passo None (Entrada "OV" "principal" true) ∅ _ Rerun);
      [apply alcancavel_nova|]. vm_compute. reflexivity. }
  split; [exact Ha|]. apply (navegacao_segura _ _ _ Ha).
Defined.

(** X19.  After [logout], whatever the session held, the next run shows the
    login form again and the session stays unauthenticated, unless the
    button "Entrar" is pressed with a user and a password that
    [authenticate] accepts; then the run stores both and asks for a rerun. *)
Theorem depois_do_logout e ss :
  script e (logout ss)
  = if entrar e && authenticate (username e) (password e)
    then Some (autentica e (logout ss), Rerun)
    else Some (logout ss, Login (entrar e)).
Proof.
  assert (Ha : logout ss !! "authenticated" = Some (Bool false)).
  { unfold logout. cbv zeta. repeat case_match; by simplify_map_eq by done. }
  assert (Hp : logout ss !! "password_submitted" = Some (Bool false)).
  { unfold logout. cbv zeta. repeat case_match; by simplify_map_eq by done. }
  unfold script, check_auth, login, botao_entrar. cbv zeta.
  repeat (rewrite ?Ha, ?Hp; cbn).
  destruct (entrar e), (authenticate _ _); done.
Qed.

(** X20.  A run of the login form authenticates only with a pair that
    [authenticate] accepts: when the session is authenticated after [login]
    and was not before, the user and the password typed are one of the four
    entries of [users], and they are what the session stores. *)
Theorem login_exige_credenciais e ss ss' s a :
  ss !! "authenticated" = Some (Bool false) →
  login e ss = Some (ss', s) →
  ss' !! "authenticated" = Some a → verdadeiro a = true →
  users !! username e = Some (password e)
  ∧ s = Rerun
  ∧ ss' !! "username" = Some (Str (username e))
  ∧ ss' !! "senha" = Some (Str (password e)).
Proof.
  intros Hf Hl Ha Hv. unfold login in Hl. cbv zeta in Hl.
  assert (Hauth : ∀ t, t !! "authenticated" = Some (Bool false) →
            ss' = t → False).
  { intros t Ht ->. by simplify_eq. }
  assert (Hok : authenticate (username e) (password e) = true →
            ss' = autentica e ss
            ∨ ss' = autentica e (<["password_submitted" := Bool false]> ss) →
            users !! username e = Some (password e)
            ∧ ss' !! "username" = Some (Str (username e))
            ∧ ss' !! "senha" = Some (Str (password e))).
  { intros Hau Hss. split.
    - unfold authenticate in Hau. destruct (users !! username e); [|done].
      by apply bool_decide_eq_true in Hau as ->.
    - destruct Hss as [-> | ->]; unfold autentica; by simplify_map_eq by done. }
  destruct (ss !! "password_submitted") as [sub|] eqn:Hsub.
  - rewrite Hsub in Hl. cbn in Hl. unfold botao_entrar in Hl.
    repeat case_match; simplify_eq;
      try (exfalso; eapply Hauth; [|reflexivity]; by simplify_map_eq by done);
      try (destruct Hok as (?&?&?); [done|by eauto|done]).
  - rewrite lookup_insert_eq in Hl. cbn in Hl. unfold botao_entrar in Hl.
    repeat case_match; simplify_eq;
      try (exfalso; eapply Hauth; [|reflexivity]; by simplify_map_eq by done).
    destruct Hok as (?&?&?); [done|by eauto|done].
Qed.

Lemma login_exige_credenciais_witness :
  login entrada_temi sessao_deslogada
  = Some (autentica entrada_temi
            (<["password_submitted" := Bool false]> sessao_deslogada), Rerun)
  ∧ users !! "TEMI" = Some "secundario"
  ∧ Rerun = Rerun
  ∧ autentica entrada_temi
      (<["password_submitted" := Bool false]> sessao_deslogada)
    !! "username" = Some (Str "TEMI")
  ∧ autentica entrada_temi
      (<["password_submitted" := Bool false]> sessao_deslogada)
    !! "senha" = Some (Str "secundario").
Proof.
  split; [vm_compute; reflexivity|].
  apply (login_exige_credenciais entrada_temi sessao_deslogada
           (autentica entrada_temi
              (<["password_submitted" := Bool false]> sessao_deslogada))
           Rerun (Bool true));
    [reflexivity|vm_compute; reflexivity|reflexivity|reflexivity].
Defined.
